(** * Gimpo traffic analyzer: the scoring script [project3.py]

    A shallow embedding of the data transformations of [project3.py]
    (min-max normalisation, weighted score, ranking, comparison with the
    column means) together with the properties its specification states.

    Frames.  A [DataFrame] is the list of its named columns; a column is
    numeric or text, as [read_csv] types it.  Exceptions are results:
    [KeyError] for an absent column, [TypeError] for arithmetic on text,
    [IndexError] for [.iloc[0]] on an empty selection.  The sorting
    algorithm behind [sort_values] is the library's and enters as a
    parameter with the property the library documents.  On frames a
    [float64] is an exact rational or one of the IEEE special values
    (the two infinities and NaN), with division by zero, the propagation
    of NaN and the comparisons that are false on NaN as IEEE defines
    them; the results about frames (which columns are read and written,
    which exception is raised, where NaN appears, which row and which
    mean the comparison uses) do not depend on rounding.

    Numbers.  The results about the values of the normalised columns and
    of the score are stated on columns with their dtype and proved for
    the arithmetic the script runs in: [int64] differences wrap around
    modulo [2^64], and every [float64] operation returns the exact
    result rounded to the nearest binary64 value (ties to even, gradual
    underflow, overflow to an infinity).  The two zeros of binary64 are
    not told apart. *)

From Stdlib Require Import ZArith QArith Qround Qpower Lqa Lia.
From Stdlib Require Import List String Bool Arith Permutation Sorted.
Import ListNotations.

Local Open Scope Q_scope.

(* ================================================================= *)
(** ** float64 values *)

Inductive float64 : Type :=
| Fin (q : Q)
| PInf
| NInf
| NaN.

Definition isnan (x : float64) : bool :=
  match x with NaN => true | _ => false end.

Definition is_finite (x : float64) : bool :=
  match x with Fin _ => true | _ => false end.

(** The infinity (or NaN) a product or quotient with an infinite or zero
    operand takes from the sign of the other operand. *)
Definition inf_of_sign (c : comparison) : float64 :=
  match c with Gt => PInf | Lt => NInf | Eq => NaN end.

Definition fneg (x : float64) : float64 :=
  match x with
  | Fin q => Fin (- q)
  | PInf => NInf
  | NInf => PInf
  | NaN => NaN
  end.

Definition fadd (x y : float64) : float64 :=
  match x, y with
  | NaN, _ | _, NaN => NaN
  | Fin a, Fin b => Fin (a + b)
  | PInf, NInf | NInf, PInf => NaN
  | PInf, _ | _, PInf => PInf
  | NInf, _ | _, NInf => NInf
  end.

Definition fsub (x y : float64) : float64 := fadd x (fneg y).

Definition fmul (x y : float64) : float64 :=
  match x, y with
  | NaN, _ | _, NaN => NaN
  | Fin a, Fin b => Fin (a * b)
  | Fin a, PInf | PInf, Fin a => inf_of_sign (a ?= 0)
  | Fin a, NInf | NInf, Fin a => inf_of_sign (0 ?= a)
  | PInf, PInf | NInf, NInf => PInf
  | PInf, NInf | NInf, PInf => NInf
  end.

(** True division: [0/0] is NaN and [x/0] an infinity, never an
    exception (numpy semantics). *)
Definition fdiv (x y : float64) : float64 :=
  match x, y with
  | NaN, _ | _, NaN => NaN
  | Fin a, Fin b =>
      if Qeq_bool b 0 then inf_of_sign (a ?= 0) else Fin (a / b)
  | Fin _, PInf | Fin _, NInf => Fin 0
  | PInf, Fin b => if Qle_bool 0 b then PInf else NInf
  | NInf, Fin b => if Qle_bool 0 b then NInf else PInf
  | PInf, PInf | PInf, NInf | NInf, PInf | NInf, NInf => NaN
  end.

(** [x < y], false as soon as one side is NaN. *)
Definition fltb (x y : float64) : bool :=
  match x, y with
  | NaN, _ | _, NaN => false
  | Fin a, Fin b => match a ?= b with Lt => true | _ => false end
  | NInf, NInf | PInf, PInf => false
  | NInf, _ | _, PInf => true
  | PInf, _ | _, NInf => false
  end.

Definition fgtb (x y : float64) : bool := fltb y x.

(** [x == y] of Python: false on NaN. *)
Definition feqb (x y : float64) : bool :=
  match x, y with
  | Fin a, Fin b => Qeq_bool a b
  | PInf, PInf | NInf, NInf => true
  | _, _ => false
  end.

(** The same value: equal rationals, the same infinity, or NaN on both
    sides (the relation in which results are stated; it is not [==]). *)
Definition feq (x y : float64) : Prop :=
  match x, y with
  | Fin a, Fin b => a == b
  | PInf, PInf | NInf, NInf | NaN, NaN => True
  | _, _ => False
  end.

Definition in_0_100 (x : float64) : Prop :=
  match x with Fin q => 0 <= q <= 100 | _ => False end.

Definition of_nat (n : nat) : float64 := Fin (inject_Z (Z.of_nat n)).

(* ================================================================= *)
(** ** Reductions of a float64 column ([Series.min], [.max], [.mean]) *)

(** pandas reductions skip NaN ([skipna=True]). *)
Definition notna (xs : list float64) : list float64 :=
  filter (fun v => negb (isnan v)) xs.

Definition fmin2 (a b : float64) : float64 := if fltb b a then b else a.
Definition fmax2 (a b : float64) : float64 := if fltb a b then b else a.

(** NaN when no value is left after skipping NaN. *)
Definition Series_min (xs : list float64) : float64 :=
  match notna xs with
  | [] => NaN
  | v :: r => fold_left fmin2 r v
  end.

Definition Series_max (xs : list float64) : float64 :=
  match notna xs with
  | [] => NaN
  | v :: r => fold_left fmax2 r v
  end.

Definition Series_sum (xs : list float64) : float64 :=
  fold_left fadd (notna xs) (Fin 0).

Definition Series_mean (xs : list float64) : float64 :=
  fdiv (Series_sum xs) (of_nat (List.length (notna xs))).

(* ================================================================= *)
(** ** Min-max normalisation (lines 33-35 of [calculate_traffic_score]) *)

(** Which end of the raw scale is the good one. *)
Inductive norm_direction : Type := ASCENDING_GOOD | DESCENDING_GOOD.

(** [(s - s.min()) / (s.max() - s.min()) * 100], lines 33 and 34. *)
Definition scale_up (xs : list float64) : list float64 :=
  let mn := Series_min xs in
  let mx := Series_max xs in
  map (fun v => fmul (fdiv (fsub v mn) (fsub mx mn)) (Fin 100)) xs.

(** [(s.max() - s) / (s.max() - s.min()) * 100], line 35. *)
Definition scale_down (xs : list float64) : list float64 :=
  let mn := Series_min xs in
  let mx := Series_max xs in
  map (fun v => fmul (fdiv (fsub mx v) (fsub mx mn)) (Fin 100)) xs.

Definition normalize (xs : list float64) (d : norm_direction) : list float64 :=
  match d with
  | ASCENDING_GOOD => scale_up xs
  | DESCENDING_GOOD => scale_down xs
  end.

(* ================================================================= *)
(** ** Exceptions *)

Inductive exn : Type :=
| KeyError (k : string)
| TypeError
| IndexError.

Inductive result (A : Type) : Type :=
| Ok (a : A)
| Raise (e : exn).

Arguments Ok {A} a.
Arguments Raise {A} e.

Definition bind {A B : Type} (m : result A) (k : A -> result B) : result B :=
  match m with
  | Ok a => k a
  | Raise e => Raise e
  end.

Notation "x <- m ;; k" := (bind m (fun x => k))
  (at level 61, m at next level, right associativity).

(* ================================================================= *)
(** ** Columns and frames *)

(** A column as [read_csv] yields it: numbers (an empty cell is NaN), or
    text ([object] dtype) as soon as one cell does not parse as a
    number. *)
Inductive Series : Type :=
| Float64 (xs : list float64)
| Object (xs : list string).

Definition Series_len (s : Series) : nat :=
  match s with
  | Float64 xs => List.length xs
  | Object xs => List.length xs
  end.

(** A frame: its columns by name, in column order. *)
Definition DataFrame : Type := list (string * Series).

(** [df[k]] *)
Fixpoint getitem (df : DataFrame) (k : string) : result Series :=
  match df with
  | [] => Raise (KeyError k)
  | (k', s) :: r => if String.eqb k' k then Ok s else getitem r k
  end.

(** [df[k] = s]: replaces the column, or appends it as the last one. *)
Fixpoint setitem (df : DataFrame) (k : string) (s : Series) : DataFrame :=
  match df with
  | [] => [(k, s)]
  | (k', s') :: r =>
      if String.eqb k' k then (k, s) :: r else (k', s') :: setitem r k s
  end.

(** [df.empty]: no column, or no row. *)
Definition empty (df : DataFrame) : bool :=
  match df with
  | [] => true
  | (_, s) :: _ => Nat.eqb (Series_len s) 0
  end.

Definition dict_getitem {V : Type} (d : list (string * V)) (k : string)
  : result V :=
  match find (fun kv => String.eqb (fst kv) k) d with
  | Some kv => Ok (snd kv)
  | None => Raise (KeyError k)
  end.

Fixpoint zip_with {A B C : Type} (f : A -> B -> C) (xs : list A)
  (ys : list B) : list C :=
  match xs, ys with
  | x :: xs', y :: ys' => f x y :: zip_with f xs' ys'
  | _, _ => []
  end.

(** Arithmetic on a text column raises [TypeError] at its first cell;
    on a column without rows there is no cell to raise on. *)
Definition Series_normalize (s : Series) (d : norm_direction) : result Series :=
  match s with
  | Float64 xs => Ok (Float64 (normalize xs d))
  | Object [] => Ok (Object [])
  | Object (_ :: _) => Raise TypeError
  end.

(** [s * w] for a number [w]. *)
Definition Series_mul (s : Series) (w : float64) : result Series :=
  match s with
  | Float64 xs => Ok (Float64 (map (fun v => fmul v w) xs))
  | Object [] => Ok (Object [])
  | Object (_ :: _) => Raise TypeError
  end.

(** [a + b], cell by cell (the columns of a frame have one length):
    numbers add, text concatenates, a number and a text raise. *)
Definition Series_add (a b : Series) : result Series :=
  match a, b with
  | Float64 xs, Float64 ys => Ok (Float64 (zip_with fadd xs ys))
  | Object xs, Object ys => Ok (Object (zip_with String.append xs ys))
  | Float64 xs, Object ys | Object ys, Float64 xs =>
      match xs, ys with
      | [], [] => Ok (Object [])
      | _, _ => Raise TypeError
      end
  end.

(* ================================================================= *)
(** ** Column names *)

Definition col_region : string := "지역".
Definition col_speed : string := "평균_통행_속도".
Definition col_transit : string := "대중교통_노선_수".
Definition col_accidents : string := "교통사고_건수_10만명당".
Definition col_norm_speed : string := "정규화_평균_통행_속도".
Definition col_norm_transit : string := "정규화_대중교통_노선_수".
Definition col_norm_safety : string := "정규화_교통사고_건수".
Definition col_score : string := "교통_환경_점수".
Definition col_rank : string := "순위".

(* ================================================================= *)
(** ** [calculate_traffic_score] *)

Definition weights : list (string * float64) :=
  [ (col_speed, Fin (4 # 10));
    (col_transit, Fin (3 # 10));
    (col_accidents, Fin (3 # 10)) ].

Definition calculate_traffic_score (df : DataFrame) : result DataFrame :=
  (* line 33 *)
  s <- getitem df col_speed ;;
  ns <- Series_normalize s ASCENDING_GOOD ;;
  let df := setitem df col_norm_speed ns in
  (* line 34 *)
  t <- getitem df col_transit ;;
  nt <- Series_normalize t ASCENDING_GOOD ;;
  let df := setitem df col_norm_transit nt in
  (* line 35 *)
  a <- getitem df col_accidents ;;
  na <- Series_normalize a DESCENDING_GOOD ;;
  let df := setitem df col_norm_safety na in
  (* lines 37-41 *)
  c1 <- getitem df col_norm_speed ;;
  w1 <- dict_getitem weights col_speed ;;
  p1 <- Series_mul c1 w1 ;;
  c2 <- getitem df col_norm_transit ;;
  w2 <- dict_getitem weights col_transit ;;
  p2 <- Series_mul c2 w2 ;;
  p12 <- Series_add p1 p2 ;;
  c3 <- getitem df col_norm_safety ;;
  w3 <- dict_getitem weights col_accidents ;;
  p3 <- Series_mul c3 w3 ;;
  total <- Series_add p12 p3 ;;
  Ok (setitem df col_score total).

(* ================================================================= *)
(** ** Loading (lines 12-23 and 54-56) *)

(** What the upload widget and [read_csv] hand to the script. *)
Inductive upload : Type :=
| NoFile
| Unreadable
| Csv (df : DataFrame).

(** Both failure paths return [pd.DataFrame()], the frame without
    columns. *)
Definition load_and_preprocess_data (uploaded_file : upload) : DataFrame :=
  match uploaded_file with
  | Csv df => df
  | Unreadable => []
  | NoFile => []
  end.

(* ================================================================= *)
(** ** The ranked table (lines 60-62) *)

Fixpoint mapM {A B : Type} (f : A -> result B) (l : list A)
  : result (list B) :=
  match l with
  | [] => Ok []
  | x :: r => y <- f x ;; ys <- mapM f r ;; Ok (y :: ys)
  end.

(** [df[[k1, ..., kn]]] *)
Definition select (df : DataFrame) (ks : list string) : result DataFrame :=
  mapM (fun k => s <- getitem df k ;; Ok (k, s)) ks.

(** The rows of a column at the positions [idx], in that order. *)
Definition take (idx : list nat) (s : Series) : Series :=
  match s with
  | Float64 xs => Float64 (map (fun i => nth i xs NaN) idx)
  | Object xs => Object (map (fun i => nth i xs EmptyString) idx)
  end.

(** [df.insert(loc, k, s)] for a new column name [k]. *)
Definition insert (df : DataFrame) (loc : nat) (k : string) (s : Series)
  : DataFrame :=
  firstn loc df ++ (k, s) :: skipn loc df.

(** [len(df)]: the number of rows. *)
Definition len (df : DataFrame) : nat :=
  match df with
  | [] => O
  | (_, s) :: _ => Series_len s
  end.

(** [np.arange(a, b)] *)
Definition arange (a b : nat) : Series :=
  Float64 (map of_nat (seq a (b - a))).

(** The order of a descending sort with NaN last: [a] may stand before
    [b]. *)
Definition key_ge (a b : float64) : bool :=
  isnan b || (negb (isnan a) && negb (fltb a b)).

Section Ranking.

(** The positions in sorted order that pandas computes for
    [sort_values(by=..., ascending=False)] with the default
    [kind='quicksort'] and [na_position='last']: the algorithm is the
    library's, and its documentation promises a sorted rearrangement
    (only [kind='mergesort'] and [kind='stable'] promise more). *)
Variable nargsort : Series -> list nat.

Definition nargsort_spec : Prop :=
  forall ks : list float64,
    Permutation (nargsort (Float64 ks)) (seq 0 (List.length ks)) /\
    StronglySorted
      (fun i j => key_ge (nth i ks NaN) (nth j ks NaN) = true)
      (nargsort (Float64 ks)).

(** [df.sort_values(by=k, ascending=False).reset_index(drop=True)] *)
Definition sort_values (df : DataFrame) (k : string) : result DataFrame :=
  key <- getitem df k ;;
  let idx := nargsort key in
  Ok (map (fun c => (fst c, take idx (snd c))) df).

Definition display_df (df : DataFrame) : result DataFrame :=
  sel <- select df
           [col_region; col_speed; col_transit; col_accidents; col_score] ;;
  sorted <- sort_values sel col_score ;;
  Ok (insert sorted 1 col_rank (arange 1 (len sorted + 1))).

End Ranking.

(** A sorting order that meets [nargsort_spec], for the examples:
    insertion into a descending list. *)
Fixpoint insert_desc (ks : list float64) (i : nat) (l : list nat)
  : list nat :=
  match l with
  | [] => [i]
  | j :: r =>
      if key_ge (nth i ks NaN) (nth j ks NaN) then i :: j :: r
      else j :: insert_desc ks i r
  end.

Definition isort_desc (ks : list float64) (l : list nat) : list nat :=
  fold_right (insert_desc ks) [] l.

Definition series_positions (s : Series) : list nat :=
  seq 0 (Series_len s).

Definition argsort_forward (s : Series) : list nat :=
  match s with
  | Float64 ks => isort_desc ks (series_positions s)
  | Object _ => series_positions s
  end.

(* ================================================================= *)
(** ** Comparison of the selected region with the means (lines 97-118) *)

(** A Python value of the script: a [str] or a number. *)
Inductive scalar : Type :=
| Str (s : string)
| Num (f : float64).

Definition scalar_eqb (a b : scalar) : bool :=
  match a, b with
  | Str s, Str t => String.eqb s t
  | Num f, Num g => feqb f g
  | _, _ => false
  end.

Definition tolist (s : Series) : list scalar :=
  match s with
  | Float64 xs => map Num xs
  | Object xs => map Str xs
  end.

Definition placeholder : scalar := Str "선택".

Definition higher : string := "높습니다".
Definition lower : string := "낮습니다".
Definition equal : string := "같습니다".

(** Line 116. *)
Definition direction (diff : float64) : string :=
  if fgtb diff (Fin 0) then higher
  else if fltb diff (Fin 0) then lower
  else equal.

Fixpoint first_true (mask : list bool) : option nat :=
  match mask with
  | [] => None
  | true :: _ => Some O
  | false :: r => option_map S (first_true r)
  end.

(** [df[mask].iloc[0]], as the position of the row in [df]. *)
Definition iloc0 (mask : list bool) : result nat :=
  match first_true mask with
  | Some i => Ok i
  | None => Raise IndexError
  end.

(** [df[df[k] == v]]: the mask of the rows kept. *)
Definition eq_mask (s : Series) (v : scalar) : list bool :=
  map (fun c => scalar_eqb c v) (tolist s).

(** [row[k]] for the row of [df] at position [i]. *)
Definition row_getitem (df : DataFrame) (i : nat) (k : string)
  : result scalar :=
  s <- getitem df k ;;
  match nth_error (tolist s) i with
  | Some v => Ok v
  | None => Raise IndexError
  end.

(** [df.mean(numeric_only=True)] *)
Fixpoint mean (df : DataFrame) : list (string * float64) :=
  match df with
  | [] => []
  | (k, Float64 xs) :: r => (k, Series_mean xs) :: mean r
  | (_, Object _) :: r => mean r
  end.

Record Line : Type := mkLine {
  line_col : string;
  line_user_val : float64;
  line_avg_val : float64;
  line_diff : float64;
  line_direction : string
}.

Definition compare_col (df : DataFrame) (user_data : nat)
  (gimpo_avg : list (string * float64)) (col : string) : result Line :=
  user_val <- row_getitem df user_data col ;;
  avg_val <- dict_getitem gimpo_avg col ;;
  match user_val with
  | Num u =>
      let diff := fsub u avg_val in
      Ok (mkLine col u avg_val diff (direction diff))
  | Str _ => Raise TypeError
  end.

(** Lines 101-118, for a [user_location] other than the placeholder. *)
Definition compare (df : DataFrame) (user_location : scalar)
  : result (list Line) :=
  regions <- getitem df col_region ;;
  user_data <- iloc0 (eq_mask regions user_location) ;;
  let gimpo_avg := mean df in
  _ <- row_getitem df user_data col_score ;;
  _ <- dict_getitem gimpo_avg col_score ;;
  mapM (compare_col df user_data gimpo_avg)
       [col_speed; col_transit; col_accidents].

(* ================================================================= *)
(** ** The script, top to bottom *)

(** The entries the select box offers (line 97). *)
Definition all_locations (df : DataFrame) : result (list scalar) :=
  regions <- getitem df col_region ;;
  Ok (placeholder :: tolist regions).

Inductive page : Type :=
| Warning
| Rendered (table : DataFrame) (comparison : option (list Line))
| Uncaught (e : exn).

Section Script.

Variable nargsort : Series -> list nat.

(** One run of the script, from line 54 on, for the uploaded file and
    the entry chosen in the select box (the charts of lines 66-91 draw
    from [df] and leave it as it is). *)
Definition run (uploaded_file : upload) (user_location : scalar) : page :=
  let df := load_and_preprocess_data uploaded_file in
  if negb (empty df) then
    match calculate_traffic_score df with
    | Raise e => Uncaught e
    | Ok df =>
        match display_df nargsort df with
        | Raise e => Uncaught e
        | Ok table =>
            match all_locations df with
            | Raise e => Uncaught e
            | Ok _ =>
                if negb (scalar_eqb user_location placeholder) then
                  match compare df user_location with
                  | Raise e => Uncaught e
                  | Ok block => Rendered table (Some block)
                  end
                else Rendered table None
            end
        end
    end
  else Warning.

End Script.

(* ================================================================= *)
(** ** Datasets the specification calls valid *)

Definition finite_col (xs : list float64) : bool := forallb is_finite xs.

(** Every column has the frame's number of rows. *)
Definition well_formed (df : DataFrame) : bool :=
  forallb (fun c => Nat.eqb (Series_len (snd c)) (len df)) df.

(** The column is there, numeric, and without NaN or infinity. *)
Definition numeric_col (df : DataFrame) (k : string) : bool :=
  match getitem df k with
  | Ok (Float64 xs) => finite_col xs
  | _ => false
  end.

(** A non-empty dataset in which every record has finite numeric values
    for the three raw metrics. *)
Definition valid_dataset (df : DataFrame) : bool :=
  negb (empty df) && well_formed df &&
  numeric_col df col_speed && numeric_col df col_transit &&
  numeric_col df col_accidents.

(* ================================================================= *)
(** ** Vocabulary of the statements *)


(** The weighted sum of lines 37-41 on three numeric columns. *)
Definition weighted_sum (ns nt na : list float64) : list float64 :=
  zip_with fadd
    (zip_with fadd (map (fun v => fmul v (Fin (4 # 10))) ns)
                   (map (fun v => fmul v (Fin (3 # 10))) nt))
    (map (fun v => fmul v (Fin (3 # 10))) na).

Definition new_columns : list string :=
  [col_norm_speed; col_norm_transit; col_norm_safety; col_score].

(** The sum of a list of rationals, as [Series_sum] folds it. *)
Definition Qsum (qs : list Q) : Q := fold_left Qplus qs 0.

(** The line of the block for one column, from the selected cell and the
    mean. *)
Definition line_of (col : string) (u m : float64) : Line :=
  mkLine col u m (fsub u m) (direction (fsub u m)).

(** What reading and normalising the column [k] raises, if anything:
    [KeyError] when the column is absent, [TypeError] when it holds
    text. *)
Definition col_error (df : DataFrame) (k : string) : option exn :=
  match getitem df k with
  | Raise e => Some e
  | Ok (Object (_ :: _)) => Some TypeError
  | Ok _ => None
  end.

(** The first of them, in the order of lines 33, 34, 35. *)
Definition score_error (df : DataFrame) : option exn :=
  match col_error df col_speed with
  | Some e => Some e
  | None =>
      match col_error df col_transit with
      | Some e => Some e
      | None => col_error df col_accidents
      end
  end.

(** Position [i] may stand before position [j] in a descending order of
    the keys [ks]. *)
Definition before (ks : list float64) (i j : nat) : Prop :=
  key_ge (nth i ks NaN) (nth j ks NaN) = true.

(** The frame [calculate_traffic_score] returns, from the columns it
    computed. *)
Definition with_scores (df : DataFrame) (ns nt na total : Series)
  : DataFrame :=
  setitem (setitem (setitem (setitem df col_norm_speed ns)
                            col_norm_transit nt)
                   col_norm_safety na)
          col_score total.

(* ================================================================= *)
(** ** Sample datasets *)

Definition two_regions : DataFrame :=
  [ (col_region, Object ["A"%string; "B"%string]);
    (col_speed, Float64 [Fin 30; Fin 60]);
    (col_transit, Float64 [Fin 5; Fin 15]);
    (col_accidents, Float64 [Fin 10; Fin 2]) ].

Definition tied_regions : DataFrame :=
  [ (col_region, Object ["A"%string; "B"%string; "C"%string]);
    (col_speed, Float64 [Fin 30; Fin 30; Fin 60]);
    (col_transit, Float64 [Fin 15; Fin 5; Fin 10]);
    (col_accidents, Float64 [Fin 10; Fin 2; Fin 6]) ].

Definition missing_cell : DataFrame :=
  [ (col_region, Object ["A"%string; "B"%string; "C"%string]);
    (col_speed, Float64 [Fin 30; NaN; Fin 60]);
    (col_transit, Float64 [Fin 5; Fin 15; Fin 10]);
    (col_accidents, Float64 [Fin 10; Fin 2; Fin 6]) ].

Definition text_cell : DataFrame :=
  [ (col_region, Object ["A"%string; "B"%string]);
    (col_speed, Object ["30"%string; "fast"%string]);
    (col_transit, Float64 [Fin 5; Fin 15]);
    (col_accidents, Float64 [Fin 10; Fin 2]) ].

Definition missing_region : DataFrame :=
  [ (col_speed, Float64 [Fin 30; Fin 60]);
    (col_transit, Float64 [Fin 5; Fin 15]);
    (col_accidents, Float64 [Fin 10; Fin 2]) ].

(* ================================================================= *)
(** ** Rounding to binary64 *)

Definition pow2 (e : Z) : Q := Qpower 2 e.

(** The exponent of a positive rational: [2^e <= q < 2^(e+1)]. *)
Definition ilog2 (q : Q) : Z :=
  let e0 := (Z.log2 (Qnum q) - Z.log2 (Zpos (Qden q)))%Z in
  if Qle_bool (pow2 e0) q then e0 else (e0 - 1)%Z.

(** The nearest integer of a non-negative rational, a tie going to the
    even one. *)
Definition rne (x : Q) : Z :=
  let f := Qfloor x in
  match Qcompare (x - inject_Z f) (1 # 2) with
  | Lt => f
  | Gt => (f + 1)%Z
  | Eq => if Z.even f then f else (f + 1)%Z
  end.

(** The exponent of the last place: 53 significant bits, and never below
    the subnormal spacing [2^-1074]. *)
Definition cexp (q : Q) : Z := Z.max (ilog2 q - 52) (-1074).

(** The nearest binary64 magnitude of a positive rational, before the
    test for overflow. *)
Definition round_pos (q : Q) : Q :=
  inject_Z (rne (q / pow2 (cexp q))) * pow2 (cexp q).

(** A magnitude that rounds to [2^1024] or more is an infinity. *)
Definition overflow (r : Q) : float64 :=
  if Qle_bool (pow2 1024) r then PInf else Fin r.

(** The binary64 value of a rational under the default rounding
    (to nearest, ties to even). *)
Definition round64 (q : Q) : float64 :=
  match Qcompare q 0 with
  | Eq => Fin 0
  | Gt => overflow (round_pos q)
  | Lt => fneg (overflow (round_pos (- q)))
  end.

Definition round_f (x : float64) : float64 :=
  match x with Fin q => round64 q | _ => x end.

(** The four operations of float64: the exact result, rounded. *)
Definition b_add (x y : float64) : float64 := round_f (fadd x y).
Definition b_sub (x y : float64) : float64 := round_f (fsub x y).
Definition b_mul (x y : float64) : float64 := round_f (fmul x y).
Definition b_div (x y : float64) : float64 := round_f (fdiv x y).

(** [x <= y], false as soon as one side is NaN. *)
Definition fle (x y : float64) : Prop :=
  match x, y with
  | NaN, _ | _, NaN => False
  | Fin a, Fin b => a <= b
  | NInf, _ => True
  | _, PInf => True
  | _, _ => False
  end.

(** The rational is a binary64 value. *)
Definition representable (q : Q) : bool := feqb (round64 q) (Fin q).

(* ================================================================= *)
(** ** Columns with their dtype, and lines 33-41 on them *)

(** [int64] arithmetic wraps around. *)
Definition wrap64 (z : Z) : Z := ((z + 2 ^ 63) mod 2 ^ 64 - 2 ^ 63)%Z.

(** The conversion of an [int64] to [float64]. *)
Definition of_int (z : Z) : float64 := round64 (inject_Z z).

(** A numeric column as [read_csv] types it: [int64] when every cell is
    an integer literal, [float64] otherwise (an empty cell is NaN). *)
Inductive column : Type :=
| Int64Col (xs : list Z)
| Float64Col (xs : list float64).

(** [Series.min] and [Series.max] of an [int64] column.  The value on a
    column without rows is immaterial: line 56 keeps an empty frame from
    being scored. *)
Definition int_min (xs : list Z) : Z :=
  match xs with [] => 0%Z | x :: r => fold_left Z.min r x end.
Definition int_max (xs : list Z) : Z :=
  match xs with [] => 0%Z | x :: r => fold_left Z.max r x end.

(** [df[col].max() - df[col].min()], the divisor of lines 33-35: an
    [int64] difference (converted to [float64] by the division) or a
    [float64] difference. *)
Definition spread (c : column) : float64 :=
  match c with
  | Int64Col xs => of_int (wrap64 (int_max xs - int_min xs))
  | Float64Col xs => b_sub (Series_max xs) (Series_min xs)
  end.

(** [df[col] - df[col].min()] (lines 33, 34) and
    [df[col].max() - df[col]] (line 35), cell by cell. *)
Definition numerator (c : column) (d : norm_direction) : list float64 :=
  match c with
  | Int64Col xs =>
      map (fun v => of_int (wrap64 (match d with
                                    | ASCENDING_GOOD => v - int_min xs
                                    | DESCENDING_GOOD => int_max xs - v
                                    end))) xs
  | Float64Col xs =>
      map (fun v => match d with
                    | ASCENDING_GOOD => b_sub v (Series_min xs)
                    | DESCENDING_GOOD => b_sub (Series_max xs) v
                    end) xs
  end.

(** One cell of lines 33-35: [num / spread * 100]. *)
Definition norm_cell (num sp : float64) : float64 :=
  b_mul (b_div num sp) (Fin 100).

(** Lines 33-35 on one column. *)
Definition normalize64 (c : column) (d : norm_direction) : list float64 :=
  map (fun n => b_mul (b_div n (spread c)) (Fin 100)) (numerator c d).

(** The weights of line 31 are the float64 literals [0.4] and [0.3]. *)
Definition weight_speed : float64 := round64 (4 # 10).
Definition weight_transit : float64 := round64 (3 # 10).
Definition weight_safety : float64 := round64 (3 # 10).

(** One row of lines 37-41, summed from left to right. *)
Definition score_cell (x y z : float64) : float64 :=
  b_add (b_add (b_mul x weight_speed) (b_mul y weight_transit))
        (b_mul z weight_safety).

(** The score column that lines 33-41 compute from the speed, transit
    and accident columns. *)
Definition traffic_score64 (s t a : column) : list float64 :=
  zip_with b_add
    (zip_with b_add
       (map (fun v => b_mul v weight_speed) (normalize64 s ASCENDING_GOOD))
       (map (fun v => b_mul v weight_transit) (normalize64 t ASCENDING_GOOD)))
    (map (fun v => b_mul v weight_safety) (normalize64 a DESCENDING_GOOD)).

(* ================================================================= *)
(** ** Vocabulary of the statements on typed columns *)

Definition cell_value (v : float64) : Q :=
  match v with Fin q => q | _ => 0 end.

(** The cells of a column of finite numbers, as rationals. *)
Definition cells (c : column) : list Q :=
  match c with
  | Int64Col xs => map inject_Z xs
  | Float64Col xs => map cell_value xs
  end.

Definition col_min (c : column) : Q :=
  match c with
  | Int64Col xs => inject_Z (int_min xs)
  | Float64Col xs => cell_value (Series_min xs)
  end.

Definition col_max (c : column) : Q :=
  match c with
  | Int64Col xs => inject_Z (int_max xs)
  | Float64Col xs => cell_value (Series_max xs)
  end.

Definition in_int64 (z : Z) : bool :=
  ((- 2 ^ 63 <=? z) && (z <? 2 ^ 63))%Z.

(** Every cell is a finite number of the column's dtype. *)
Definition valid_column (c : column) : bool :=
  match c with
  | Int64Col xs => forallb in_int64 xs
  | Float64Col xs =>
      forallb (fun v => match v with Fin q => representable q | _ => false end) xs
  end.

(** [max != min] *)
Definition nondegenerate64 (c : column) : bool :=
  match c with
  | Int64Col xs => negb (int_max xs =? int_min xs)%Z
  | Float64Col xs => negb (feqb (Series_max xs) (Series_min xs))
  end.

(** [max - min] is computed without leaving the dtype: no wrap-around in
    [int64], no infinity in [float64]. *)
Definition no_overflow (c : column) : bool :=
  match c with
  | Int64Col xs => (int_max xs - int_min xs <? 2 ^ 63)%Z
  | Float64Col xs => is_finite (b_sub (Series_max xs) (Series_min xs))
  end.

(** The numerator of the specification's formula, on rationals. *)
Definition exact_numerator (d : norm_direction) (v mn mx : Q) : Q :=
  match d with
  | ASCENDING_GOOD => v - mn
  | DESCENDING_GOOD => mx - v
  end.

(** The cell at row [i] is missing (NaN); an [int64] column has no
    missing cell. *)
Definition missing_at (c : column) (i : nat) : bool :=
  match c with
  | Int64Col _ => false
  | Float64Col xs =>
      match nth_error xs i with Some NaN => true | _ => false end
  end.

(* ================================================================= *)
(** ** Sample columns *)

Definition sample_speed : column := Float64Col [Fin 30; Fin 60; Fin 45].
Definition sample_transit : column := Int64Col [5; 15; 10]%Z.
Definition sample_accidents : column := Float64Col [Fin 10; Fin 2; Fin 6].


(** 90.99999999999999 is the float64 just below 91. *)
Definition close_speeds : column :=
  Float64Col [Fin 0; Fin (91 - pow2 (-46)); Fin 91; Fin 101].

Definition wide_counts : column :=
  Int64Col [-5000000000000000000; 0; 5000000000000000000]%Z.

Definition wide_speeds : column :=
  Float64Col [Fin (- pow2 1023); Fin 0; Fin (pow2 1023)].

Definition low_transit : column := Int64Col [10; 5; 15]%Z.
Definition high_accidents : column := Float64Col [Fin 6; Fin 10; Fin 2].

Definition one_row_speed : column := Float64Col [Fin 30].
Definition one_row_transit : column := Int64Col [5%Z].
Definition one_row_accidents : column := Float64Col [Fin 10].

Definition gap_speed : column := Float64Col [Fin 30; NaN; Fin 60].

(* ================================================================= *)
(** * Properties *)

(** ** Arithmetic and order on finite values *)

Lemma fltb_Fin (a b : Q) : fltb (Fin a) (Fin b) = true <-> a < b.
Proof.
  simpl. rewrite Qlt_alt. destruct (a ?= b); split; congruence.
Qed.

Lemma fltb_Fin_false (a b : Q) : fltb (Fin a) (Fin b) = false <-> b <= a.
Proof.
  simpl. rewrite Qle_alt. destruct (b ?= a) eqn:E.
  - apply Qeq_alt in E. rewrite (proj1 (Qeq_alt a b)) by (symmetry; exact E).
    split; congruence.
  - apply Qlt_alt in E. rewrite (proj1 (Qgt_alt a b) E). split; congruence.
  - apply Qgt_alt in E. rewrite (proj1 (Qlt_alt a b) E). split; congruence.
Qed.

Lemma finite_col_map (xs : list float64) :
  finite_col xs = true -> exists qs, xs = map Fin qs.
Proof.
  induction xs as [|x xs IH]; simpl; intros H.
  - exists []. reflexivity.
  - apply andb_true_iff in H. destruct H as [Hx Hxs].
    destruct (IH Hxs) as [qs ->].
    destruct x as [q| | |]; try discriminate.
    exists (q :: qs). reflexivity.
Qed.

Lemma finite_col_Fin (qs : list Q) : finite_col (map Fin qs) = true.
Proof. induction qs; simpl; auto. Qed.

Lemma notna_Fin (qs : list Q) : notna (map Fin qs) = map Fin qs.
Proof.
  unfold notna. induction qs as [|q qs IH]; simpl; [reflexivity|].
  now rewrite IH.
Qed.

Lemma fold_fmin2_Fin (r : list Q) : forall q,
  exists m, fold_left fmin2 (map Fin r) (Fin q) = Fin m /\
            In m (q :: r) /\ forall v, In v (q :: r) -> m <= v.
Proof.
  induction r as [|x r IH]; intros q; simpl.
  - exists q. split; [reflexivity|]. split; [now left|].
    intros v [->|[]]. apply Qle_refl.
  - unfold fmin2 at 2. destruct (fltb (Fin x) (Fin q)) eqn:E.
    + apply fltb_Fin in E. destruct (IH x) as (m & Hm & Hin & Hle).
      exists m. split; [exact Hm|]. split.
      * destruct Hin as [->|Hin]; [right; now left | right; now right].
      * intros v [->|[->|Hv]].
        -- apply Qle_trans with x; [apply Hle; now left | now apply Qlt_le_weak].
        -- apply Hle; now left.
        -- apply Hle; now right.
    + apply fltb_Fin_false in E. destruct (IH q) as (m & Hm & Hin & Hle).
      exists m. split; [exact Hm|]. split.
      * destruct Hin as [->|Hin]; [now left | right; now right].
      * intros v [->|[->|Hv]].
        -- apply Hle; now left.
        -- apply Qle_trans with q; [apply Hle; now left | exact E].
        -- apply Hle; now right.
Qed.

Lemma fold_fmax2_Fin (r : list Q) : forall q,
  exists m, fold_left fmax2 (map Fin r) (Fin q) = Fin m /\
            In m (q :: r) /\ forall v, In v (q :: r) -> v <= m.
Proof.
  induction r as [|x r IH]; intros q; simpl.
  - exists q. split; [reflexivity|]. split; [now left|].
    intros v [->|[]]. apply Qle_refl.
  - unfold fmax2 at 2. destruct (fltb (Fin q) (Fin x)) eqn:E.
    + apply fltb_Fin in E. destruct (IH x) as (m & Hm & Hin & Hle).
      exists m. split; [exact Hm|]. split.
      * destruct Hin as [->|Hin]; [right; now left | right; now right].
      * intros v [->|[->|Hv]].
        -- apply Qle_trans with x; [now apply Qlt_le_weak | apply Hle; now left].
        -- apply Hle; now left.
        -- apply Hle; now right.
    + apply fltb_Fin_false in E. destruct (IH q) as (m & Hm & Hin & Hle).
      exists m. split; [exact Hm|]. split.
      * destruct Hin as [->|Hin]; [now left | right; now right].
      * intros v [->|[->|Hv]].
        -- apply Hle; now left.
        -- apply Qle_trans with q; [exact E | apply Hle; now left].
        -- apply Hle; now right.
Qed.

(** On a non-empty finite column the minimum and the maximum are cells of
    the column and bound every cell. *)
Lemma min_max_Fin (q : Q) (r : list Q) :
  exists mn mx,
    Series_min (map Fin (q :: r)) = Fin mn /\
    Series_max (map Fin (q :: r)) = Fin mx /\
    In mn (q :: r) /\ In mx (q :: r) /\
    forall v, In v (q :: r) -> mn <= v <= mx.
Proof.
  destruct (fold_fmin2_Fin r q) as (mn & Hmn & Hin1 & Hle1).
  destruct (fold_fmax2_Fin r q) as (mx & Hmx & Hin2 & Hle2).
  exists mn, mx. unfold Series_min, Series_max.
  rewrite notna_Fin. cbn [map]. rewrite Hmn, Hmx.
  repeat split; auto.
Qed.

(** ** Normalisation of a finite column *)

Lemma Qeq_bool_minus (a b : Q) : Qeq_bool (a - b) 0 = Qeq_bool a b.
Proof.
  destruct (Qeq_bool a b) eqn:E.
  - apply Qeq_bool_iff in E. apply Qeq_bool_iff. lra.
  - apply Qeq_bool_neq in E. destruct (Qeq_bool (a - b) 0) eqn:F; auto.
    apply Qeq_bool_iff in F. exfalso. apply E. lra.
Qed.

Lemma normalize_Fin_degenerate (qs : list Q) (mn mx : Q) (d : norm_direction) :
  Series_min (map Fin qs) = Fin mn ->
  Series_max (map Fin qs) = Fin mx ->
  (forall v, In v qs -> mn <= v <= mx) ->
  Qeq_bool mx mn = true ->
  normalize (map Fin qs) d = map (fun _ => NaN) qs.
Proof.
  intros Hmn Hmx Hb He.
  assert (Hd : Qeq_bool (mx + - mn) 0 = true)
    by (rewrite <- He; apply Qeq_bool_minus).
  apply Qeq_bool_iff in He.
  destruct d; unfold normalize, scale_up, scale_down;
    rewrite Hmn, Hmx, map_map; apply map_ext_in; intros v Hv;
    cbn [fsub fadd fneg fdiv fmul]; rewrite Hd;
    specialize (Hb v Hv).
  - assert (E : v + - mn == 0) by lra.
    apply Qeq_alt in E. rewrite E. reflexivity.
  - assert (E : mx + - v == 0) by lra.
    apply Qeq_alt in E. rewrite E. reflexivity.
Qed.


(** ** Frames: reading back what was assigned *)

Lemma getitem_setitem_same (df : DataFrame) (k : string) (s : Series) :
  getitem (setitem df k s) k = Ok s.
Proof.
  induction df as [|[k' s'] r IH]; simpl.
  - now rewrite String.eqb_refl.
  - destruct (String.eqb k' k) eqn:E; simpl.
    + now rewrite String.eqb_refl.
    + now rewrite E.
Qed.

Lemma getitem_setitem_other (df : DataFrame) (k k' : string) (s : Series) :
  String.eqb k k' = false ->
  getitem (setitem df k s) k' = getitem df k'.
Proof.
  intros Hk. induction df as [|[k0 s0] r IH]; simpl.
  - now rewrite Hk.
  - destruct (String.eqb k0 k) eqn:E; simpl.
    + apply String.eqb_eq in E. subst k0. now rewrite Hk.
    + destruct (String.eqb k0 k'); [reflexivity | exact IH].
Qed.

(** Reads a column back through the assignments made since. *)
Ltac read_back :=
  repeat (rewrite getitem_setitem_same ||
          rewrite getitem_setitem_other by reflexivity).

(** On three numeric columns [calculate_traffic_score] returns, and the
    frame it returns holds the three normalised columns and the score,
    next to the columns it was given. *)
Lemma calculate_traffic_score_numeric (df : DataFrame) (s t a : list float64) :
  getitem df col_speed = Ok (Float64 s) ->
  getitem df col_transit = Ok (Float64 t) ->
  getitem df col_accidents = Ok (Float64 a) ->
  exists df',
    calculate_traffic_score df = Ok df' /\
    getitem df' col_norm_speed = Ok (Float64 (normalize s ASCENDING_GOOD)) /\
    getitem df' col_norm_transit = Ok (Float64 (normalize t ASCENDING_GOOD)) /\
    getitem df' col_norm_safety = Ok (Float64 (normalize a DESCENDING_GOOD)) /\
    getitem df' col_score =
      Ok (Float64 (weighted_sum (normalize s ASCENDING_GOOD)
                                (normalize t ASCENDING_GOOD)
                                (normalize a DESCENDING_GOOD))) /\
    forall k, ~ In k new_columns -> getitem df' k = getitem df k.
Proof.
  intros Hs Ht Ha. unfold calculate_traffic_score.
  rewrite Hs. cbn [bind Series_normalize]. read_back.
  rewrite Ht. cbn [bind Series_normalize]. read_back.
  rewrite Ha. cbn [bind Series_normalize]. read_back.
  change (dict_getitem weights col_speed) with (Ok (Fin (4 # 10))).
  change (dict_getitem weights col_transit) with (Ok (Fin (3 # 10))).
  change (dict_getitem weights col_accidents) with (Ok (Fin (3 # 10))).
  cbn [bind Series_mul Series_add].
  eexists. split; [reflexivity|]. read_back.
  repeat split.
  intros k Hk. unfold new_columns in Hk. simpl in Hk.
  repeat rewrite getitem_setitem_other; try reflexivity;
    apply String.eqb_neq; intros E; apply Hk; subst k; auto.
Qed.

(** ** Cells of a normalised column *)

Lemma normalize_length (xs : list float64) (d : norm_direction) :
  List.length (normalize xs d) = List.length xs.
Proof. destruct d; apply length_map. Qed.

(** C3, as the code has it.  A column whose cells all hold one finite
    value has [max == min], and each of its cells is normalised to NaN
    (the quotient is 0/0), in both directions. *)
Theorem normalize_degenerate (xs : list float64) (c : Q) (d : norm_direction) :
  xs <> [] ->
  (forall v, In v xs -> feq v (Fin c)) ->
  feqb (Series_max xs) (Series_min xs) = true /\
  List.length (normalize xs d) = List.length xs /\
  Forall (fun y => y = NaN) (normalize xs d).
Proof.
  intros Hnil Hall.
  assert (Hf : finite_col xs = true).
  { apply forallb_forall. intros v Hv. specialize (Hall v Hv).
    destruct v; simpl in Hall; try contradiction. reflexivity. }
  destruct (finite_col_map xs Hf) as [qs ->].
  destruct qs as [|q r]; [now elim Hnil|].
  destruct (min_max_Fin q r) as (mn & mx & Hmn & Hmx & Hin1 & Hin2 & Hb).
  assert (Hc : forall v, In v (q :: r) -> v == c).
  { intros v Hv. apply (Hall (Fin v)). now apply in_map. }
  assert (He : Qeq_bool mx mn = true).
  { apply Qeq_bool_iff. rewrite (Hc mx Hin2), (Hc mn Hin1). reflexivity. }
  split; [rewrite Hmn, Hmx; exact He|].
  split; [apply normalize_length|].
  rewrite (normalize_Fin_degenerate (q :: r) mn mx d Hmn Hmx Hb He).
  apply Forall_forall. intros y Hy. apply in_map_iff in Hy.
  now destruct Hy as (v & <- & _).
Qed.

Lemma normalize_degenerate_witness :
  Forall (fun y => y = NaN) (normalize [Fin 50; Fin 50; Fin 50] ASCENDING_GOOD).
Proof.
  apply (normalize_degenerate [Fin 50; Fin 50; Fin 50] 50 ASCENDING_GOOD).
  - discriminate.
  - intros v [<-|[<-|[<-|[]]]]; simpl; reflexivity.
Defined.

(** C3, as stated, fails: on the column 50, 50 the normalised cells are
    NaN, not 100. *)
Lemma normalize_degenerate_not_100 :
  (forall v, In v [Fin 50; Fin 50] -> feq v (Fin 50)) /\
  normalize [Fin 50; Fin 50] ASCENDING_GOOD = [NaN; NaN] /\
  normalize [Fin 50; Fin 50] DESCENDING_GOOD = [NaN; NaN] /\
  ~ Forall (fun y => feq y (Fin 100))
      (normalize [Fin 50; Fin 50] ASCENDING_GOOD).
Proof.
  split; [intros v [<-|[<-|[]]]; simpl; reflexivity|].
  split; [reflexivity|]. split; [reflexivity|].
  intros H. inversion H as [|y l Hy _]. exact Hy.
Qed.

(** ** Valid datasets *)

Lemma getitem_len (df : DataFrame) (n : nat) (k : string) (s : Series) :
  forallb (fun c => Nat.eqb (Series_len (snd c)) n) df = true ->
  getitem df k = Ok s -> Series_len s = n.
Proof.
  induction df as [|[k' s'] r IH]; simpl; [discriminate|].
  intros H Hg. apply andb_true_iff in H. destruct H as [H1 H2].
  destruct (String.eqb k' k).
  - injection Hg as <-. now apply Nat.eqb_eq.
  - now apply IH.
Qed.

Lemma numeric_col_inv (df : DataFrame) (k : string) :
  numeric_col df k = true ->
  exists xs, getitem df k = Ok (Float64 xs) /\ finite_col xs = true.
Proof.
  unfold numeric_col. destruct (getitem df k) as [[xs|xs]|e]; try discriminate.
  intros H. now exists xs.
Qed.

Lemma valid_dataset_inv (df : DataFrame) :
  valid_dataset df = true ->
  exists s t a,
    getitem df col_speed = Ok (Float64 s) /\
    getitem df col_transit = Ok (Float64 t) /\
    getitem df col_accidents = Ok (Float64 a) /\
    finite_col s = true /\ finite_col t = true /\ finite_col a = true /\
    List.length s = len df /\ List.length t = len df /\
    List.length a = len df /\ (0 < len df)%nat.
Proof.
  unfold valid_dataset. intros H.
  repeat (apply andb_true_iff in H; destruct H as [H ?]).
  destruct (numeric_col_inv df col_speed) as (s & Hs & Fs); [assumption|].
  destruct (numeric_col_inv df col_transit) as (t & Ht & Ft); [assumption|].
  destruct (numeric_col_inv df col_accidents) as (a & Ha & Fa); [assumption|].
  exists s, t, a. repeat split; auto.
  - apply (getitem_len df (len df) col_speed (Float64 s)); assumption.
  - apply (getitem_len df (len df) col_transit (Float64 t)); assumption.
  - apply (getitem_len df (len df) col_accidents (Float64 a)); assumption.
  - apply negb_true_iff in H. destruct df as [|[k0 s0] r]; [discriminate|].
    simpl in *. apply Nat.eqb_neq in H. lia.
Qed.

Lemma zip_with_nth_error {A B C : Type} (f : A -> B -> C) (xs : list A)
  (ys : list B) (i : nat) (x : A) (y : B) :
  nth_error xs i = Some x -> nth_error ys i = Some y ->
  nth_error (zip_with f xs ys) i = Some (f x y).
Proof.
  revert ys i. induction xs as [|x0 xs IH]; intros [|y0 ys] [|i]; simpl;
    try discriminate.
  - intros [= ->] [= ->]. reflexivity.
  - apply IH.
Qed.

Lemma zip_with_length {A B C : Type} (f : A -> B -> C) (xs : list A)
  (ys : list B) :
  List.length xs = List.length ys ->
  List.length (zip_with f xs ys) = List.length xs.
Proof.
  revert ys. induction xs as [|x xs IH]; intros [|y ys]; simpl;
    try discriminate; auto.
Qed.

Lemma nth_error_lt_Some {A : Type} (l : list A) (i : nat) :
  (i < List.length l)%nat -> exists x, nth_error l i = Some x.
Proof.
  intros H. destruct (nth_error l i) eqn:E; [eauto|].
  apply nth_error_None in E. lia.
Qed.

Lemma weighted_sum_length (ns nt na : list float64) :
  List.length ns = List.length nt -> List.length ns = List.length na ->
  List.length (weighted_sum ns nt na) = List.length ns.
Proof.
  intros H1 H2. unfold weighted_sum.
  rewrite zip_with_length; rewrite zip_with_length; rewrite ?length_map; auto.
Qed.

(** ** Means *)

Lemma fold_fadd_Fin (qs : list Q) : forall acc,
  fold_left fadd (map Fin qs) (Fin acc) = Fin (fold_left Qplus qs acc).
Proof. induction qs as [|q qs IH]; intros acc; simpl; auto. Qed.

Lemma fold_Qplus_acc (qs : list Q) : forall acc,
  fold_left Qplus qs acc == acc + Qsum qs.
Proof.
  unfold Qsum. induction qs as [|q qs IH]; intros acc; simpl.
  - lra.
  - rewrite (IH (acc + q)), (IH (0 + q)). lra.
Qed.

Lemma Qsum_cons (q : Q) (qs : list Q) : Qsum (q :: qs) == q + Qsum qs.
Proof. unfold Qsum at 1. simpl. rewrite fold_Qplus_acc. lra. Qed.

Lemma Series_sum_Fin (qs : list Q) : Series_sum (map Fin qs) = Fin (Qsum qs).
Proof. unfold Series_sum. rewrite notna_Fin. apply fold_fadd_Fin. Qed.

Lemma inject_nat_pos (n : nat) : (0 < n)%nat -> 0 < inject_Z (Z.of_nat n).
Proof.
  intros H. change 0 with (inject_Z 0). rewrite <- Zlt_Qlt. lia.
Qed.

Lemma Series_mean_Fin (q : Q) (r : list Q) :
  Series_mean (map Fin (q :: r)) =
  Fin (Qsum (q :: r) / inject_Z (Z.of_nat (List.length (q :: r)))).
Proof.
  unfold Series_mean. rewrite Series_sum_Fin, notna_Fin, length_map.
  unfold of_nat. cbn [fdiv].
  destruct (Qeq_bool (inject_Z (Z.of_nat (List.length (q :: r)))) 0) eqn:E;
    [|reflexivity].
  apply Qeq_bool_iff in E.
  assert (H : 0 < inject_Z (Z.of_nat (List.length (q :: r))))
    by (apply inject_nat_pos; simpl; lia).
  rewrite E in H. now apply Qlt_irrefl in H.
Qed.

Lemma Qsum_map_minus (m : Q) (qs : list Q) :
  Qsum (map (fun v => v - m) qs) ==
  Qsum qs - inject_Z (Z.of_nat (List.length qs)) * m.
Proof.
  induction qs as [|q qs IH].
  - unfold Qsum. cbn [map fold_left List.length Z.of_nat].
    change (inject_Z 0) with 0. ring.
  - cbn [map]. rewrite !Qsum_cons, IH.
    replace (Z.of_nat (List.length (q :: qs)))
      with (Z.of_nat (List.length qs) + 1)%Z by (simpl List.length; lia).
    rewrite inject_Z_plus. change (inject_Z 1) with 1. lra.
Qed.

(** The deviations from the mean of a finite column add up to zero. *)
Lemma deviations_sum_zero (xs : list float64) :
  finite_col xs = true ->
  feq (Series_sum (map (fun v => fsub v (Series_mean xs)) xs)) (Fin 0).
Proof.
  intros Hf. destruct (finite_col_map xs Hf) as [qs ->].
  destruct qs as [|q r]; [simpl; reflexivity|].
  rewrite Series_mean_Fin. set (n := inject_Z (Z.of_nat (List.length (q :: r)))).
  rewrite map_map.
  change (map (fun x => fsub (Fin x) (Fin (Qsum (q :: r) / n))) (q :: r))
    with (map (fun x => Fin (x + - (Qsum (q :: r) / n))) (q :: r)).
  rewrite <- (map_map (fun x => x + - (Qsum (q :: r) / n)) Fin).
  rewrite Series_sum_Fin. cbn [feq].
  rewrite (Qsum_map_minus (Qsum (q :: r) / n) (q :: r)). fold n.
  assert (Hn : 0 < n) by (apply inject_nat_pos; simpl; lia).
  field. intros E. rewrite E in Hn. now apply Qlt_irrefl in Hn.
Qed.

(** [df.mean(numeric_only=True)[k]] is the mean of the column [df[k]]. *)
Lemma mean_getitem (df : DataFrame) (k : string) (xs : list float64) :
  getitem df k = Ok (Float64 xs) ->
  dict_getitem (mean df) k = Ok (Series_mean xs).
Proof.
  unfold dict_getitem.
  induction df as [|[k' s'] r IH]; simpl; [discriminate|].
  destruct (String.eqb k' k) eqn:E.
  - intros [= ->]. simpl. now rewrite E.
  - intros H. destruct s' as [ys|ys]; [simpl; rewrite E|]; now apply IH.
Qed.

(** ** The comparison block *)

Lemma first_true_Some (mask : list bool) : forall i,
  first_true mask = Some i ->
  nth_error mask i = Some true /\
  (forall j, (j < i)%nat -> nth_error mask j = Some false) /\
  (i < List.length mask)%nat.
Proof.
  induction mask as [|b mask IH]; intros i; simpl; [discriminate|].
  destruct b.
  - intros [= <-]. simpl. repeat split; [intros j Hj; lia | lia].
  - destruct (first_true mask) as [k|]; simpl; [|discriminate].
    intros [= <-]. destruct (IH k eq_refl) as (H1 & H2 & H3).
    repeat split; [exact H1 | | lia].
    intros [|j] Hj; simpl; [reflexivity | apply H2; lia].
Qed.

Lemma first_true_None (mask : list bool) :
  first_true mask = None <-> forall b, In b mask -> b = false.
Proof.
  induction mask as [|b mask IH]; simpl.
  - split; [intros _ b [] | reflexivity].
  - destruct b.
    + split; [discriminate | intros H; specialize (H true (or_introl eq_refl)); discriminate].
    + destruct (first_true mask) as [k|]; simpl.
      * split; [discriminate|]. intros H.
        assert (Hn : Some k = None)
          by (apply IH; intros b Hb; apply H; now right).
        discriminate.
      * split; [|reflexivity]. intros _ b [<-|Hb]; [reflexivity|].
        now apply (proj1 IH).
Qed.

Lemma compare_col_numeric (df : DataFrame) (i : nat)
  (avg : list (string * float64)) (col : string) (xs : list float64)
  (u m : float64) :
  getitem df col = Ok (Float64 xs) ->
  nth_error xs i = Some u ->
  dict_getitem avg col = Ok m ->
  compare_col df i avg col = Ok (line_of col u m).
Proof.
  intros Hc Hu Hm. unfold compare_col, row_getitem.
  rewrite Hc. cbn [bind tolist]. rewrite nth_error_map, Hu.
  cbn [option_map bind]. rewrite Hm. reflexivity.
Qed.

Lemma compare_numeric (df : DataFrame) (regions : Series) (name : scalar)
  (i : nat) (s t a sc : list float64) (us ut ua usc : float64) :
  getitem df col_region = Ok regions ->
  first_true (eq_mask regions name) = Some i ->
  getitem df col_score = Ok (Float64 sc) -> nth_error sc i = Some usc ->
  getitem df col_speed = Ok (Float64 s) -> nth_error s i = Some us ->
  getitem df col_transit = Ok (Float64 t) -> nth_error t i = Some ut ->
  getitem df col_accidents = Ok (Float64 a) -> nth_error a i = Some ua ->
  compare df name =
  Ok [ line_of col_speed us (Series_mean s);
       line_of col_transit ut (Series_mean t);
       line_of col_accidents ua (Series_mean a) ].
Proof.
  intros Hr Hi Hsc Husc Hs Hus Ht Hut Ha Hua. unfold compare.
  rewrite Hr. cbn [bind]. unfold iloc0. rewrite Hi. cbn [bind].
  unfold row_getitem at 1. rewrite Hsc. cbn [bind tolist].
  rewrite nth_error_map, Husc. cbn [option_map bind].
  rewrite (mean_getitem df col_score sc Hsc). cbn [bind mapM].
  rewrite (compare_col_numeric df i (mean df) col_speed s us (Series_mean s));
    auto using mean_getitem.
  rewrite (compare_col_numeric df i (mean df) col_transit t ut (Series_mean t));
    auto using mean_getitem.
  rewrite (compare_col_numeric df i (mean df) col_accidents a ua (Series_mean a));
    auto using mean_getitem.
Qed.

Lemma compare_no_match (df : DataFrame) (regions : Series) (name : scalar) :
  getitem df col_region = Ok regions ->
  first_true (eq_mask regions name) = None ->
  compare df name = Raise IndexError.
Proof.
  intros Hr Hn. unfold compare. rewrite Hr. cbn [bind].
  unfold iloc0. rewrite Hn. reflexivity.
Qed.

Lemma raw_not_new (k : string) :
  In k [col_region; col_speed; col_transit; col_accidents] ->
  ~ In k new_columns.
Proof.
  intros [<-|[<-|[<-|[<-|[]]]]]; cbv; intuition discriminate.
Qed.

Lemma valid_well_formed (df : DataFrame) :
  valid_dataset df = true -> well_formed df = true.
Proof.
  unfold valid_dataset. intros H.
  repeat (apply andb_true_iff in H; destruct H as [H ?]). assumption.
Qed.

Lemma tolist_length (s : Series) : List.length (tolist s) = Series_len s.
Proof. destruct s; simpl; apply length_map. Qed.

Lemma eq_mask_length (s : Series) (v : scalar) :
  List.length (eq_mask s v) = Series_len s.
Proof. unfold eq_mask. rewrite length_map. apply tolist_length. Qed.

(** On a scored valid dataset, the block for a name found at row [i]:
    the three cells of row [i], each against the mean of its whole
    column. *)
Lemma compare_valid (df0 df : DataFrame) (regions : Series) (name : scalar)
  (i : nat) :
  valid_dataset df0 = true ->
  calculate_traffic_score df0 = Ok df ->
  getitem df0 col_region = Ok regions ->
  first_true (eq_mask regions name) = Some i ->
  exists qs qt qa us ut ua,
    getitem df0 col_speed = Ok (Float64 (map Fin qs)) /\
    getitem df0 col_transit = Ok (Float64 (map Fin qt)) /\
    getitem df0 col_accidents = Ok (Float64 (map Fin qa)) /\
    getitem df col_speed = Ok (Float64 (map Fin qs)) /\
    getitem df col_transit = Ok (Float64 (map Fin qt)) /\
    getitem df col_accidents = Ok (Float64 (map Fin qa)) /\
    List.length qs = len df0 /\ List.length qt = len df0 /\
    List.length qa = len df0 /\ (i < len df0)%nat /\
    nth_error qs i = Some us /\ nth_error qt i = Some ut /\
    nth_error qa i = Some ua /\
    compare df name =
    Ok [ line_of col_speed (Fin us) (Series_mean (map Fin qs));
         line_of col_transit (Fin ut) (Series_mean (map Fin qt));
         line_of col_accidents (Fin ua) (Series_mean (map Fin qa)) ].
Proof.
  intros Hv Hok Hr Hi.
  pose proof (valid_well_formed df0 Hv) as Hwf.
  destruct (valid_dataset_inv df0 Hv)
    as (s & t & a & Hs & Ht & Ha & Fs & Ft & Fa & Ls & Lt & La & Hn).
  destruct (finite_col_map s Fs) as [qs ->].
  destruct (finite_col_map t Ft) as [qt ->].
  destruct (finite_col_map a Fa) as [qa ->].
  rewrite length_map in Ls, Lt, La.
  destruct (calculate_traffic_score_numeric df0 _ _ _ Hs Ht Ha)
    as (df' & Hok' & _ & _ & _ & Hsc & Hkeep).
  rewrite Hok in Hok'. injection Hok' as <-.
  assert (Hlt : (i < len df0)%nat).
  { destruct (first_true_Some _ i Hi) as (_ & _ & H).
    rewrite eq_mask_length in H.
    rewrite <- (getitem_len df0 (len df0) col_region regions Hwf Hr). exact H. }
  destruct (nth_error_lt_Some qs i) as [us Hus]; [lia|].
  destruct (nth_error_lt_Some qt i) as [ut Hut]; [lia|].
  destruct (nth_error_lt_Some qa i) as [ua Hua]; [lia|].
  assert (Ks : getitem df col_speed = Ok (Float64 (map Fin qs)))
    by (rewrite Hkeep; [exact Hs | apply raw_not_new; simpl; auto]).
  assert (Kt : getitem df col_transit = Ok (Float64 (map Fin qt)))
    by (rewrite Hkeep; [exact Ht | apply raw_not_new; simpl; auto]).
  assert (Ka : getitem df col_accidents = Ok (Float64 (map Fin qa)))
    by (rewrite Hkeep; [exact Ha | apply raw_not_new; simpl; auto]).
  assert (Kr : getitem df col_region = Ok regions)
    by (rewrite Hkeep; [exact Hr | apply raw_not_new; simpl; auto]).
  destruct (nth_error_lt_Some
              (weighted_sum (normalize (map Fin qs) ASCENDING_GOOD)
                            (normalize (map Fin qt) ASCENDING_GOOD)
                            (normalize (map Fin qa) DESCENDING_GOOD)) i)
    as [usc Husc].
  { rewrite weighted_sum_length; rewrite !normalize_length, !length_map; lia. }
  exists qs, qt, qa, us, ut, ua.
  do 13 (split; [assumption|]).
  eapply compare_numeric; eauto using map_nth_error.
Qed.

(** ** The direction label *)

Lemma direction_Fin (q : Q) :
  (direction (Fin q) = higher <-> 0 < q) /\
  (direction (Fin q) = lower <-> q < 0) /\
  (direction (Fin q) = equal <-> q == 0).
Proof.
  unfold direction, fgtb.
  destruct (fltb (Fin 0) (Fin q)) eqn:E1.
  - apply fltb_Fin in E1.
    repeat split; intros H; try discriminate H; try exact E1; try reflexivity;
      exfalso; lra.
  - apply fltb_Fin_false in E1.
    destruct (fltb (Fin q) (Fin 0)) eqn:E2.
    + apply fltb_Fin in E2.
      repeat split; intros H; try discriminate H; try exact E2;
        try reflexivity; exfalso; lra.
    + apply fltb_Fin_false in E2.
      repeat split; intros H; try discriminate H; try reflexivity;
        try lra; exfalso; lra.
Qed.

(** ** The ranked table *)

Lemma display_df_columns (nargsort : Series -> list nat) (df : DataFrame)
  (regions s t a sc : Series) :
  getitem df col_region = Ok regions ->
  getitem df col_speed = Ok s ->
  getitem df col_transit = Ok t ->
  getitem df col_accidents = Ok a ->
  getitem df col_score = Ok sc ->
  display_df nargsort df =
  Ok [ (col_region, take (nargsort sc) regions);
       (col_rank, arange 1 (List.length (nargsort sc) + 1));
       (col_speed, take (nargsort sc) s);
       (col_transit, take (nargsort sc) t);
       (col_accidents, take (nargsort sc) a);
       (col_score, take (nargsort sc) sc) ].
Proof.
  intros Hr Hs Ht Ha Hsc. unfold display_df, select.
  cbn [mapM bind]. rewrite Hr, Hs, Ht, Ha, Hsc. cbn [bind].
  unfold sort_values.
  change (getitem [(col_region, regions); (col_speed, s); (col_transit, t);
                   (col_accidents, a); (col_score, sc)] col_score)
    with (Ok sc).
  cbn [bind map fst snd]. unfold insert. cbn [firstn skipn app len].
  assert (E : Series_len (take (nargsort sc) regions) =
              List.length (nargsort sc))
    by (destruct regions; cbn [take Series_len]; apply length_map).
  rewrite E. reflexivity.
Qed.

Lemma Series_mean_nth (qs : list Q) (i : nat) (u : Q) :
  nth_error qs i = Some u ->
  Series_mean (map Fin qs) =
  Fin (Qsum qs / inject_Z (Z.of_nat (List.length qs))).
Proof.
  destruct qs as [|q r]; [destruct i; discriminate|].
  intros _. apply Series_mean_Fin.
Qed.

Lemma scored_keeps_raw (df0 df : DataFrame) (k : string) :
  valid_dataset df0 = true ->
  calculate_traffic_score df0 = Ok df ->
  In k [col_region; col_speed; col_transit; col_accidents] ->
  getitem df k = getitem df0 k.
Proof.
  intros Hv Hok Hk.
  destruct (valid_dataset_inv df0 Hv) as (s & t & a & Hs & Ht & Ha & _).
  destruct (calculate_traffic_score_numeric df0 s t a Hs Ht Ha)
    as (df' & Hok' & _ & _ & _ & _ & Hkeep).
  rewrite Hok in Hok'. injection Hok' as <-.
  apply Hkeep. now apply raw_not_new.
Qed.

(** One run on a valid dataset with a region column: the table is shown,
    and the block is whatever [compare] gives, unless the placeholder is
    selected. *)
Lemma run_scored (nargsort : Series -> list nat) (df0 df : DataFrame)
  (regions : Series) (name : scalar) :
  valid_dataset df0 = true ->
  calculate_traffic_score df0 = Ok df ->
  getitem df0 col_region = Ok regions ->
  exists table,
    display_df nargsort df = Ok table /\
    run nargsort (Csv df0) name =
    if negb (scalar_eqb name placeholder) then
      match compare df name with
      | Raise e => Uncaught e
      | Ok block => Rendered table (Some block)
      end
    else Rendered table None.
Proof.
  intros Hv Hok Hr.
  destruct (valid_dataset_inv df0 Hv) as (s & t & a & Hs & Ht & Ha & _).
  destruct (calculate_traffic_score_numeric df0 s t a Hs Ht Ha)
    as (df' & Hok' & _ & _ & _ & Hsc & _).
  rewrite Hok in Hok'. injection Hok' as <-.
  assert (Kr : getitem df col_region = Ok regions)
    by (rewrite (scored_keeps_raw df0 df); simpl; auto).
  assert (Ks : getitem df col_speed = Ok (Float64 s))
    by (rewrite (scored_keeps_raw df0 df); simpl; auto).
  assert (Kt : getitem df col_transit = Ok (Float64 t))
    by (rewrite (scored_keeps_raw df0 df); simpl; auto).
  assert (Ka : getitem df col_accidents = Ok (Float64 a))
    by (rewrite (scored_keeps_raw df0 df); simpl; auto).
  pose proof (display_df_columns nargsort df _ _ _ _ _ Kr Ks Kt Ka Hsc) as Hd.
  eexists. split; [exact Hd|].
  unfold run. cbn [load_and_preprocess_data].
  assert (He : empty df0 = false).
  { unfold valid_dataset in Hv.
    repeat (apply andb_true_iff in Hv; destruct Hv as [Hv ?]).
    now apply negb_true_iff in Hv. }
  rewrite He. cbn [negb]. rewrite Hok, Hd.
  unfold all_locations. rewrite Kr. cbn [bind]. reflexivity.
Qed.

(** C6.  On a scored valid dataset, for a region that occurs in it, each
    of the three lines of the block carries the label of its difference
    [user value - mean], a rational: "higher" exactly when it is
    positive, "lower" exactly when it is negative, "equal" exactly when
    it is zero, with no tolerance. *)
Theorem direction_label (df0 df : DataFrame) (regions : Series)
  (name : scalar) (i : nat) :
  valid_dataset df0 = true ->
  calculate_traffic_score df0 = Ok df ->
  getitem df0 col_region = Ok regions ->
  first_true (eq_mask regions name) = Some i ->
  exists lines,
    compare df name = Ok lines /\
    map line_col lines = [col_speed; col_transit; col_accidents] /\
    forall l, In l lines ->
      exists q,
        fsub (line_user_val l) (line_avg_val l) = Fin q /\
        line_diff l = Fin q /\
        (line_direction l = higher <-> 0 < q) /\
        (line_direction l = lower <-> q < 0) /\
        (line_direction l = equal <-> q == 0).
Proof.
  intros Hv Hok Hr Hi.
  destruct (compare_valid df0 df regions name i Hv Hok Hr Hi)
    as (qs & qt & qa & us & ut & ua & _ & _ & _ & _ & _ & _ & _ & _ & _ & _
        & Hus & Hut & Hua & Hc).
  rewrite (Series_mean_nth qs i us Hus) in Hc.
  rewrite (Series_mean_nth qt i ut Hut) in Hc.
  rewrite (Series_mean_nth qa i ua Hua) in Hc.
  eexists. split; [exact Hc|]. split; [reflexivity|].
  intros l [<-|[<-|[<-|[]]]]; eexists; cbn [line_of line_user_val
    line_avg_val line_diff line_direction fsub fadd fneg];
    (split; [reflexivity|]); (split; [reflexivity|]); apply direction_Fin.
Qed.

Lemma direction_label_witness :
  exists df lines,
    calculate_traffic_score two_regions = Ok df /\
    compare df (Str "A") = Ok lines /\
    map line_direction lines = [lower; lower; higher].
Proof.
  assert (Hok : exists df, calculate_traffic_score two_regions = Ok df)
    by (vm_compute; eexists; reflexivity).
  destruct Hok as [df Hok].
  destruct (direction_label two_regions df
              (Object ["A"%string; "B"%string]) (Str "A") 0
              eq_refl Hok eq_refl eq_refl)
    as (lines & Hc & _ & _).
  exists df, lines. split; [exact Hok|]. split; [exact Hc|].
  vm_compute in Hok. injection Hok as <-.
  vm_compute in Hc. injection Hc as <-. reflexivity.
Defined.

(** C7.  On a scored valid dataset, for a region that occurs in it, the
    mean each line is compared with is the sum of its column over all the
    rows of the dataset divided by the number of rows (the selected row
    not excluded), so that the deviations of the column from it add up to
    zero. *)
Theorem gimpo_avg_arithmetic_mean (df0 df : DataFrame) (regions : Series)
  (name : scalar) (i : nat) :
  valid_dataset df0 = true ->
  calculate_traffic_score df0 = Ok df ->
  getitem df0 col_region = Ok regions ->
  first_true (eq_mask regions name) = Some i ->
  exists lines,
    compare df name = Ok lines /\
    map line_col lines = [col_speed; col_transit; col_accidents] /\
    forall l, In l lines ->
      exists qs,
        getitem df0 (line_col l) = Ok (Float64 (map Fin qs)) /\
        List.length qs = len df0 /\
        line_avg_val l = Series_mean (map Fin qs) /\
        line_avg_val l = Fin (Qsum qs / inject_Z (Z.of_nat (len df0))) /\
        feq (Series_sum (map (fun v => fsub v (line_avg_val l)) (map Fin qs)))
            (Fin 0).
Proof.
  intros Hv Hok Hr Hi.
  destruct (compare_valid df0 df regions name i Hv Hok Hr Hi)
    as (qs & qt & qa & us & ut & ua & Hs & Ht & Ha & _ & _ & _ & Ls & Lt & La
        & _ & Hus & Hut & Hua & Hc).
  eexists. split; [exact Hc|]. split; [reflexivity|].
  intros l [<-|[<-|[<-|[]]]]; cbn [line_of line_col line_avg_val].
  - exists qs. repeat split; auto.
    + rewrite (Series_mean_nth qs i us Hus), Ls. reflexivity.
    + apply deviations_sum_zero, finite_col_Fin.
  - exists qt. repeat split; auto.
    + rewrite (Series_mean_nth qt i ut Hut), Lt. reflexivity.
    + apply deviations_sum_zero, finite_col_Fin.
  - exists qa. repeat split; auto.
    + rewrite (Series_mean_nth qa i ua Hua), La. reflexivity.
    + apply deviations_sum_zero, finite_col_Fin.
Qed.

Lemma gimpo_avg_arithmetic_mean_witness :
  exists df lines,
    calculate_traffic_score two_regions = Ok df /\
    compare df (Str "B") = Ok lines /\
    map line_avg_val lines = [Fin (90 # 2); Fin (20 # 2); Fin (12 # 2)].
Proof.
  assert (Hok : exists df, calculate_traffic_score two_regions = Ok df)
    by (vm_compute; eexists; reflexivity).
  destruct Hok as [df Hok].
  destruct (gimpo_avg_arithmetic_mean two_regions df
              (Object ["A"%string; "B"%string]) (Str "B") 1
              eq_refl Hok eq_refl eq_refl)
    as (lines & Hc & _ & _).
  exists df, lines. split; [exact Hok|]. split; [exact Hc|].
  vm_compute in Hok. injection Hok as <-.
  vm_compute in Hc. injection Hc as <-. reflexivity.
Defined.

(** C9, as the code has it.  On a scored valid dataset with a region
    column: a name that occurs selects the first row that carries it,
    and the block is built from the cells of that row; for a name that
    occurs in no row the lookup raises [IndexError], which nothing
    catches, so the run ends with it, unless the name is the placeholder
    of the select box, for which the page is shown without a block. *)
Theorem compare_first_match (nargsort : Series -> list nat)
  (df0 df : DataFrame) (regions : Series) (name : scalar) :
  valid_dataset df0 = true ->
  calculate_traffic_score df0 = Ok df ->
  getitem df0 col_region = Ok regions ->
  (forall i, first_true (eq_mask regions name) = Some i ->
     nth_error (eq_mask regions name) i = Some true /\
     (forall j, (j < i)%nat ->
        nth_error (eq_mask regions name) j = Some false) /\
     exists lines,
       compare df name = Ok lines /\
       map line_col lines = [col_speed; col_transit; col_accidents] /\
       forall l, In l lines ->
         exists xs, getitem df0 (line_col l) = Ok (Float64 xs) /\
                    nth_error xs i = Some (line_user_val l)) /\
  ((forall c, In c (tolist regions) -> scalar_eqb c name = false) ->
     compare df name = Raise IndexError /\
     (scalar_eqb name placeholder = false ->
        run nargsort (Csv df0) name = Uncaught IndexError) /\
     (scalar_eqb name placeholder = true ->
        exists table, run nargsort (Csv df0) name = Rendered table None)).
Proof.
  intros Hv Hok Hr. split.
  - intros i Hi.
    destruct (first_true_Some _ i Hi) as (H1 & H2 & _).
    split; [exact H1|]. split; [exact H2|].
    destruct (compare_valid df0 df regions name i Hv Hok Hr Hi)
      as (qs & qt & qa & us & ut & ua & Hs & Ht & Ha & _ & _ & _ & _ & _ & _
          & _ & Hus & Hut & Hua & Hc).
    eexists. split; [exact Hc|]. split; [reflexivity|].
    intros l [<-|[<-|[<-|[]]]]; cbn [line_of line_col line_user_val];
      eexists; (split; [eassumption|]); now apply map_nth_error.
  - intros Hno.
    assert (Hn : first_true (eq_mask regions name) = None).
    { apply first_true_None. intros b Hb. unfold eq_mask in Hb.
      apply in_map_iff in Hb. destruct Hb as (c & <- & Hc). now apply Hno. }
    assert (Kr : getitem df col_region = Ok regions)
      by (rewrite (scored_keeps_raw df0 df); simpl; auto).
    pose proof (compare_no_match df regions name Kr Hn) as Hc.
    split; [exact Hc|].
    destruct (run_scored nargsort df0 df regions name Hv Hok Hr)
      as (table & _ & Hrun).
    rewrite Hc in Hrun.
    split; intros Hp; rewrite Hp in Hrun; cbn [negb] in Hrun; eauto.
Qed.

Lemma compare_first_match_witness :
  run argsort_forward (Csv two_regions) (Str "C") = Uncaught IndexError.
Proof.
  assert (Hok : exists df, calculate_traffic_score two_regions = Ok df)
    by (vm_compute; eexists; reflexivity).
  destruct Hok as [df Hok].
  destruct (compare_first_match argsort_forward two_regions df
              (Object ["A"%string; "B"%string]) (Str "C")
              eq_refl Hok eq_refl) as [_ H].
  apply H; [|reflexivity].
  intros c [<-|[<-|[]]]; reflexivity.
Defined.

(** C9, as stated, fails: with the regions A and B, the name C ends the
    run with an uncaught [IndexError] instead of a page without a
    block. *)
Lemma unknown_region_uncaught :
  (forall c, In c (tolist (Object ["A"%string; "B"%string])) ->
     scalar_eqb c (Str "C") = false) /\
  getitem two_regions col_region = Ok (Object ["A"%string; "B"%string]) /\
  run argsort_forward (Csv two_regions) (Str "C") = Uncaught IndexError /\
  forall table, run argsort_forward (Csv two_regions) (Str "C")
                <> Rendered table None.
Proof.
  split; [intros c [<-|[<-|[]]]; reflexivity|].
  split; [reflexivity|].
  assert (E : run argsort_forward (Csv two_regions) (Str "C")
              = Uncaught IndexError) by (vm_compute; reflexivity).
  split; [exact E|]. intros table. rewrite E. discriminate.
Qed.

(** ** When the score raises *)

Lemma col_error_None (df : DataFrame) (k : string) :
  col_error df k = None ->
  exists s, getitem df k = Ok s /\
            ((exists xs, s = Float64 xs) \/ s = Object []).
Proof.
  unfold col_error. destruct (getitem df k) as [[xs|[|x r]]|e];
    try discriminate; intros _; eexists; split; eauto.
Qed.

Lemma length_0_nil {A : Type} (l : list A) : List.length l = O -> l = [].
Proof. destruct l; [reflexivity | discriminate]. Qed.

Ltac score_lines Hs Ht Ha :=
  unfold calculate_traffic_score;
  rewrite Hs; cbn [bind Series_normalize]; read_back;
  try (rewrite Ht; cbn [bind Series_normalize]; read_back;
       try (rewrite Ha; cbn [bind Series_normalize]; read_back)).

Lemma score_error_Some (df : DataFrame) (e : exn) :
  score_error df = Some e -> calculate_traffic_score df = Raise e.
Proof.
  unfold score_error, col_error.
  destruct (getitem df col_speed) as [[s|[|x r]]|e1] eqn:Hs;
    try (intros [= <-]; score_lines Hs Hs Hs; reflexivity);
  destruct (getitem df col_transit) as [[t|[|y r']]|e2] eqn:Ht;
    try (intros [= <-]; score_lines Hs Ht Ht; reflexivity);
  destruct (getitem df col_accidents) as [[a|[|z r'']]|e3] eqn:Ha;
    try discriminate;
    intros [= <-]; score_lines Hs Ht Ha; reflexivity.
Qed.

Lemma score_error_None (df : DataFrame) :
  well_formed df = true ->
  score_error df = None ->
  exists df', calculate_traffic_score df = Ok df'.
Proof.
  intros Hwf. unfold score_error.
  destruct (col_error df col_speed) eqn:Es; [discriminate|].
  destruct (col_error df col_transit) eqn:Et; [discriminate|].
  intros Ea.
  destruct (col_error_None df col_speed Es) as (s & Hs & Cs).
  destruct (col_error_None df col_transit Et) as (t & Ht & Ct).
  destruct (col_error_None df col_accidents Ea) as (a & Ha & Ca).
  pose proof (getitem_len df (len df) _ _ Hwf Hs) as Ls.
  pose proof (getitem_len df (len df) _ _ Hwf Ht) as Lt.
  pose proof (getitem_len df (len df) _ _ Hwf Ha) as La.
  destruct Cs as [[xs ->]| ->], Ct as [[ys ->]| ->], Ca as [[zs ->]| ->];
    cbn [Series_len List.length] in Ls, Lt, La;
    try (destruct (calculate_traffic_score_numeric df _ _ _ Hs Ht Ha)
           as (df' & Hok & _); now exists df');
    repeat match goal with
           | H : List.length ?l = len df |- _ =>
               assert (l = []) by (apply length_0_nil; congruence);
               clear H; subst l
           end;
    score_lines Hs Ht Ha;
    change (dict_getitem weights col_speed) with (Ok (Fin (4 # 10)));
    change (dict_getitem weights col_transit) with (Ok (Fin (3 # 10)));
    change (dict_getitem weights col_accidents) with (Ok (Fin (3 # 10)));
    cbn [bind Series_mul Series_add normalize scale_up scale_down map
         zip_with];
    eexists; reflexivity.
Qed.

(** C8, as the code has it.  On a frame whose columns have one length,
    [calculate_traffic_score] raises exactly when one of the three raw
    columns is absent ([KeyError]) or holds text ([TypeError]), and
    otherwise returns a frame, whatever the cells are (NaN included) and
    also when there is no row; on a valid dataset it returns; and the
    script does not score an empty frame but shows the warning. *)
Theorem calculate_traffic_score_raises (df : DataFrame) :
  well_formed df = true ->
  (forall e, calculate_traffic_score df = Raise e <-> score_error df = Some e) /\
  ((exists df', calculate_traffic_score df = Ok df') <->
   score_error df = None) /\
  (valid_dataset df = true ->
   exists df', calculate_traffic_score df = Ok df') /\
  (forall nargsort name,
     empty df = true -> run nargsort (Csv df) name = Warning).
Proof.
  intros Hwf.
  assert (A : forall e, calculate_traffic_score df = Raise e <->
                        score_error df = Some e).
  { intros e. split; [|apply score_error_Some].
    destruct (score_error df) as [e'|] eqn:E.
    - rewrite (score_error_Some df e' E). congruence.
    - destruct (score_error_None df Hwf E) as [df' ->]. discriminate. }
  assert (B : (exists df', calculate_traffic_score df = Ok df') <->
              score_error df = None).
  { split; [|apply score_error_None; exact Hwf].
    intros [df' Hok]. destruct (score_error df) as [e|] eqn:E; [|reflexivity].
    rewrite (score_error_Some df e E) in Hok. discriminate. }
  split; [exact A|]. split; [exact B|]. split.
  - intros Hv.
    destruct (valid_dataset_inv df Hv) as (s & t & a & Hs & Ht & Ha & _).
    destruct (calculate_traffic_score_numeric df s t a Hs Ht Ha)
      as (df' & Hok & _).
    now exists df'.
  - intros nargsort name He. unfold run. cbn [load_and_preprocess_data].
    rewrite He. reflexivity.
Qed.

Lemma calculate_traffic_score_raises_witness :
  calculate_traffic_score text_cell = Raise TypeError.
Proof.
  destruct (calculate_traffic_score_raises text_cell eq_refl) as [H _].
  apply H. reflexivity.
Defined.

(** C8, as stated, fails: a dataset with an empty cell (NaN) in a
    required column is not valid, and yet it is scored without an
    error. *)
Lemma missing_cell_scored :
  valid_dataset missing_cell = false /\
  numeric_col missing_cell col_speed = false /\
  empty missing_cell = false /\
  exists df',
    calculate_traffic_score missing_cell = Ok df' /\
    exists x z, getitem df' col_score = Ok (Float64 [Fin x; NaN; Fin z]).
Proof.
  split; [reflexivity|]. split; [reflexivity|]. split; [reflexivity|].
  eexists. split; [vm_compute; reflexivity|].
  eexists. eexists. vm_compute. reflexivity.
Qed.

(** ** A sorting order that meets the library's promise *)

Lemma key_ge_cases (a b : float64) :
  key_ge a b = true <->
  match a, b with
  | _, NaN => True
  | NaN, _ => False
  | Fin x, Fin y => y <= x
  | PInf, _ => True
  | _, NInf => True
  | _, _ => False
  end.
Proof.
  destruct a as [x| | |], b as [y| | |]; unfold key_ge;
    cbn [isnan negb orb andb]; try (cbn; intuition congruence).
  rewrite negb_true_iff. apply fltb_Fin_false.
Qed.

Lemma key_ge_total (a b : float64) :
  key_ge a b = true \/ key_ge b a = true.
Proof.
  rewrite !key_ge_cases.
  destruct a as [x| | |], b as [y| | |]; auto.
  destruct (Qlt_le_dec x y); [right; now apply Qlt_le_weak | now left].
Qed.

Lemma key_ge_trans (a b c : float64) :
  key_ge a b = true -> key_ge b c = true -> key_ge a c = true.
Proof.
  rewrite !key_ge_cases.
  destruct a as [x| | |], b as [y| | |], c as [z| | |]; try tauto.
  intros H1 H2. now apply Qle_trans with y.
Qed.

Section InsertionOrder.

Variable ks : list float64.

Lemma insert_desc_perm (i : nat) (l : list nat) :
  Permutation (insert_desc ks i l) (i :: l).
Proof.
  induction l as [|j r IH]; simpl; [apply Permutation_refl|].
  destruct (key_ge (nth i ks NaN) (nth j ks NaN)).
  - apply Permutation_refl.
  - apply perm_trans with (j :: i :: r);
      [now apply perm_skip | apply perm_swap].
Qed.

Lemma insert_desc_sorted (i : nat) (l : list nat) :
  StronglySorted (before ks) l -> StronglySorted (before ks) (insert_desc ks i l).
Proof.
  induction l as [|j r IH]; simpl; intros Hs.
  - constructor; constructor.
  - apply StronglySorted_inv in Hs. destruct Hs as [Hr Hj].
    destruct (key_ge (nth i ks NaN) (nth j ks NaN)) eqn:E.
    + constructor; [now constructor|].
      constructor; [exact E|].
      eapply Forall_impl; [|exact Hj].
      intros x Hx. unfold before in *. now apply key_ge_trans with (nth j ks NaN).
    + constructor; [now apply IH|].
      apply (Permutation_Forall (Permutation_sym (insert_desc_perm i r))).
      constructor; [|exact Hj].
      unfold before. destruct (key_ge_total (nth i ks NaN) (nth j ks NaN));
        congruence.
Qed.

Lemma isort_desc_perm (l : list nat) : Permutation (isort_desc ks l) l.
Proof.
  induction l as [|i l IH]; simpl; [constructor|].
  apply perm_trans with (i :: isort_desc ks l);
    [apply insert_desc_perm | now apply perm_skip].
Qed.

Lemma isort_desc_sorted (l : list nat) :
  StronglySorted (before ks) (isort_desc ks l).
Proof.
  induction l as [|i l IH]; simpl; [constructor|].
  now apply insert_desc_sorted.
Qed.

End InsertionOrder.

Lemma argsort_forward_spec : nargsort_spec argsort_forward.
Proof.
  intros ks. split.
  - apply isort_desc_perm.
  - apply isort_desc_sorted.
Qed.

(* ================================================================= *)
(** * The arithmetic of the score in binary64 *)

(** ** Powers of two and the exponent of a rational *)

Lemma pow2_pos (e : Z) : 0 < pow2 e.
Proof. apply Qpower_0_lt. reflexivity. Qed.

Lemma pow2_plus (a b : Z) : pow2 (a + b) == pow2 a * pow2 b.
Proof. apply Qpower_plus. discriminate. Qed.

Lemma pow2_le (a b : Z) : (a <= b)%Z -> pow2 a <= pow2 b.
Proof. intros H. apply Qpower_le_compat_l; [exact H | discriminate]. Qed.

Lemma pow2_lt_inv (a b : Z) : pow2 a < pow2 b -> (a < b)%Z.
Proof.
  intros H. destruct (Z_lt_le_dec a b) as [L|L]; [exact L|].
  apply pow2_le in L. exfalso. apply (Qlt_irrefl (pow2 a)).
  eapply Qlt_le_trans; eauto.
Qed.

Lemma pow2_Z (e : Z) : (0 <= e)%Z -> pow2 e == inject_Z (2 ^ e).
Proof. intros H. unfold pow2. symmetry. apply (Zpower_Qpower 2 e H). Qed.

Lemma inject_Z_pow2_bounds (n : Z) : (0 < n)%Z ->
  pow2 (Z.log2 n) <= inject_Z n < pow2 (Z.log2 n + 1).
Proof.
  intros H. destruct (Z.log2_spec n H) as [L U].
  pose proof (Z.log2_nonneg n) as Hn.
  rewrite !pow2_Z by lia. rewrite <- Zle_Qle, <- Zlt_Qlt.
  split; [exact L | exact U].
Qed.

Lemma ilog2_spec (q : Q) : 0 < q ->
  pow2 (ilog2 q) <= q < pow2 (ilog2 q + 1).
Proof.
  intros Hq. destruct q as [n d].
  assert (Hn : (0 < n)%Z).
  { unfold Qlt in Hq. simpl in Hq. lia. }
  unfold ilog2. cbn [Qnum Qden].
  set (ln := Z.log2 n). set (ld := Z.log2 (Zpos d)).
  destruct (inject_Z_pow2_bounds n Hn) as [Ln Un]. fold ln in Ln, Un.
  destruct (inject_Z_pow2_bounds (Zpos d) eq_refl) as [Ld Ud].
  fold ld in Ld, Ud.
  assert (E : n # d == inject_Z n / inject_Z (Zpos d)) by apply Qmake_Qdiv.
  assert (Dpos : 0 < inject_Z (Zpos d)) by reflexivity.
  assert (A : n # d < pow2 (ln - ld + 1)).
  { rewrite E. apply Qlt_shift_div_r; [exact Dpos|].
    assert (P : pow2 (ln - ld + 1) * pow2 ld == pow2 (ln + 1))
      by (rewrite <- pow2_plus; f_equiv; lia).
    pose proof (pow2_pos (ln - ld + 1)). nra. }
  assert (B : pow2 (ln - ld - 1) <= n # d).
  { rewrite E. apply Qle_shift_div_l; [exact Dpos|].
    assert (P : pow2 (ln - ld - 1) * pow2 (ld + 1) == pow2 ln)
      by (rewrite <- pow2_plus; f_equiv; lia).
    pose proof (pow2_pos (ln - ld - 1)). nra. }
  destruct (Qle_bool (pow2 (ln - ld)) (n # d)) eqn:C.
  - apply Qle_bool_iff in C. split; [exact C | exact A].
  - split; [exact B|].
    replace (ln - ld - 1 + 1)%Z with (ln - ld)%Z by lia.
    apply Qnot_le_lt. intros H. apply Qle_bool_iff in H. congruence.
Qed.

Lemma ilog2_mono (x y : Q) : 0 < x -> x <= y -> (ilog2 x <= ilog2 y)%Z.
Proof.
  intros Hx Hxy.
  assert (Hy : 0 < y) by (eapply Qlt_le_trans; eauto).
  destruct (ilog2_spec x Hx) as [Lx _]. destruct (ilog2_spec y Hy) as [_ Uy].
  assert (H : (ilog2 x < ilog2 y + 1)%Z).
  { apply pow2_lt_inv. eapply Qle_lt_trans; [exact Lx|].
    eapply Qle_lt_trans; eauto. }
  lia.
Qed.

(** ** The nearest integer *)

Lemma rne_bounds (x : Q) : (Qfloor x <= rne x <= Qfloor x + 1)%Z.
Proof.
  unfold rne. destruct (Qcompare _ _); [destruct (Z.even _)| |]; lia.
Qed.

Lemma rne_Z (k : Z) : rne (inject_Z k) = k.
Proof.
  unfold rne. rewrite Qfloor_Z.
  assert (E : Qcompare (inject_Z k - inject_Z k) (1 # 2) = Lt).
  { apply (proj1 (Qlt_alt _ _)). set (f := inject_Z k). clearbody f. lra. }
  now rewrite E.
Qed.

Ltac qcmp H :=
  first [ apply (proj2 (Qeq_alt _ _)) in H
        | apply (proj2 (Qlt_alt _ _)) in H
        | apply (proj2 (Qgt_alt _ _)) in H ].

Lemma rne_mono (x y : Q) : x <= y -> (rne x <= rne y)%Z.
Proof.
  intros Hxy.
  pose proof (Qfloor_resp_le x y Hxy) as Hf.
  pose proof (rne_bounds x) as Bx. pose proof (rne_bounds y) as By.
  destruct (Z.eq_dec (Qfloor x) (Qfloor y)) as [E|N]; [|lia].
  unfold rne. rewrite <- E.
  set (f := inject_Z (Qfloor x)). clearbody f.
  destruct (Qcompare (x - f) (1 # 2)) eqn:Cx;
    destruct (Qcompare (y - f) (1 # 2)) eqn:Cy;
    try (destruct (Z.even (Qfloor x))); try lia;
    qcmp Cx; qcmp Cy; exfalso; lra.
Qed.

(** ** Rounding is monotone *)

Lemma grid_le (q : Q) (c k : Z) :
  q <= pow2 k -> (c <= k)%Z ->
  inject_Z (rne (q / pow2 c)) * pow2 c <= pow2 k.
Proof.
  intros Hq Hc. pose proof (pow2_pos c) as Pc.
  assert (E : pow2 k == inject_Z (2 ^ (k - c)) * pow2 c).
  { rewrite <- pow2_Z by lia. rewrite <- pow2_plus. f_equiv. lia. }
  assert (H : q / pow2 c <= inject_Z (2 ^ (k - c))).
  { apply Qle_shift_div_r; [exact Pc|]. rewrite <- E. exact Hq. }
  apply rne_mono in H. rewrite rne_Z in H. rewrite E.
  apply Qmult_le_compat_r; [|now apply Qlt_le_weak].
  rewrite <- Zle_Qle. exact H.
Qed.

Lemma grid_ge (q : Q) (c k : Z) :
  pow2 k <= q -> (c <= k)%Z ->
  pow2 k <= inject_Z (rne (q / pow2 c)) * pow2 c.
Proof.
  intros Hq Hc. pose proof (pow2_pos c) as Pc.
  assert (E : pow2 k == inject_Z (2 ^ (k - c)) * pow2 c).
  { rewrite <- pow2_Z by lia. rewrite <- pow2_plus. f_equiv. lia. }
  assert (H : inject_Z (2 ^ (k - c)) <= q / pow2 c).
  { apply Qle_shift_div_l; [exact Pc|]. rewrite <- E. exact Hq. }
  apply rne_mono in H. rewrite rne_Z in H. rewrite E.
  apply Qmult_le_compat_r; [|now apply Qlt_le_weak].
  rewrite <- Zle_Qle. exact H.
Qed.

Lemma cexp_mono (x y : Q) : 0 < x -> x <= y -> (cexp x <= cexp y)%Z.
Proof.
  intros Hx Hxy. unfold cexp. pose proof (ilog2_mono x y Hx Hxy). lia.
Qed.

Lemma round_pos_mono (x y : Q) :
  0 < x -> x <= y -> round_pos x <= round_pos y.
Proof.
  intros Hx Hxy.
  assert (Hy : 0 < y) by (eapply Qlt_le_trans; eauto).
  pose proof (cexp_mono x y Hx Hxy) as Hc.
  unfold round_pos.
  destruct (Z.eq_dec (cexp x) (cexp y)) as [E|N].
  - rewrite <- E. pose proof (pow2_pos (cexp x)) as Pc.
    apply Qmult_le_compat_r; [|now apply Qlt_le_weak].
    rewrite <- Zle_Qle. apply rne_mono.
    unfold Qdiv. apply Qmult_le_compat_r; [exact Hxy|].
    apply Qinv_le_0_compat. now apply Qlt_le_weak.
  - destruct (ilog2_spec x Hx) as [_ Ux]. destruct (ilog2_spec y Hy) as [Ly _].
    assert (K1 : (cexp x <= ilog2 y)%Z) by (unfold cexp in *; lia).
    assert (K2 : (cexp y <= ilog2 y)%Z) by (unfold cexp in *; lia).
    assert (K3 : (ilog2 x + 1 <= ilog2 y)%Z) by (unfold cexp in *; lia).
    apply Qle_trans with (pow2 (ilog2 y)).
    + apply grid_le; [|exact K1].
      apply Qle_trans with (pow2 (ilog2 x + 1));
        [now apply Qlt_le_weak | now apply pow2_le].
    + apply grid_ge; assumption.
Qed.

Lemma round_pos_nonneg (q : Q) : 0 <= q -> 0 <= round_pos q.
Proof.
  intros Hq. unfold round_pos. pose proof (pow2_pos (cexp q)) as Pc.
  apply Qmult_le_0_compat; [|now apply Qlt_le_weak].
  change 0 with (inject_Z 0). rewrite <- Zle_Qle.
  rewrite <- (rne_Z 0). apply rne_mono.
  change (inject_Z 0) with 0. unfold Qdiv.
  apply Qmult_le_0_compat; [exact Hq|].
  apply Qinv_le_0_compat. now apply Qlt_le_weak.
Qed.

Lemma overflow_mono (r1 r2 : Q) :
  r1 <= r2 -> fle (overflow r1) (overflow r2).
Proof.
  intros H. unfold overflow.
  destruct (Qle_bool (pow2 1024) r1) eqn:E1;
    destruct (Qle_bool (pow2 1024) r2) eqn:E2; cbn [fle]; auto.
  apply Qle_bool_iff in E1.
  assert (E : Qle_bool (pow2 1024) r2 = true)
    by (apply Qle_bool_iff; eapply Qle_trans; eauto).
  congruence.
Qed.

Lemma overflow_nonneg (r : Q) : 0 <= r -> fle (Fin 0) (overflow r).
Proof. intros H. unfold overflow. destruct (Qle_bool _ _); cbn [fle]; auto. Qed.

Lemma fle_fneg (x y : float64) : fle x y -> fle (fneg y) (fneg x).
Proof.
  destruct x as [a| | |], y as [b| | |]; cbn [fle fneg]; auto.
  intros H. lra.
Qed.

Lemma fle_trans (x y z : float64) : fle x y -> fle y z -> fle x z.
Proof.
  destruct x as [a| | |], y as [b| | |], z as [c| | |]; cbn [fle];
    try tauto. intros. lra.
Qed.

Lemma round64_mono (x y : Q) : x <= y -> fle (round64 x) (round64 y).
Proof.
  intros Hxy. unfold round64.
  destruct (Qcompare x 0) eqn:Cx; destruct (Qcompare y 0) eqn:Cy;
    qcmp Cx; qcmp Cy; try (exfalso; lra).
  - cbn [fle]. lra.
  - apply overflow_nonneg, round_pos_nonneg. lra.
  - change (Fin 0) with (fneg (Fin 0)). apply fle_fneg.
    apply overflow_nonneg, round_pos_nonneg. lra.
  - apply fle_fneg, overflow_mono, round_pos_mono; lra.
  - apply fle_trans with (Fin 0).
    + change (Fin 0) with (fneg (Fin 0)). apply fle_fneg.
      apply overflow_nonneg, round_pos_nonneg. lra.
    + apply overflow_nonneg, round_pos_nonneg. lra.
  - apply overflow_mono, round_pos_mono; lra.
Qed.

(** ** Rounding respects equality; some fixed points *)

Lemma feq_refl (x : float64) : feq x x.
Proof. destruct x; simpl; auto. reflexivity. Qed.

Lemma feq_sym (x y : float64) : feq x y -> feq y x.
Proof. destruct x, y; simpl; auto. intros H; now symmetry. Qed.

Lemma feq_trans (x y z : float64) : feq x y -> feq y z -> feq x z.
Proof.
  destruct x, y, z; simpl; try tauto. intros H1 H2. now rewrite H1.
Qed.

Lemma fle_antisym (x y : float64) : fle x y -> fle y x -> feq x y.
Proof.
  destruct x as [a| | |], y as [b| | |]; cbn [fle feq]; try tauto.
  intros. lra.
Qed.

Lemma round64_eq (x y : Q) : x == y -> feq (round64 x) (round64 y).
Proof.
  intros E. apply fle_antisym; apply round64_mono; rewrite E; apply Qle_refl.
Qed.

Lemma round64_0 : round64 0 = Fin 0.
Proof. reflexivity. Qed.

Lemma round64_1 : feq (round64 1) (Fin 1).
Proof. vm_compute. reflexivity. Qed.

Lemma round64_100 : feq (round64 100) (Fin 100).
Proof. vm_compute. reflexivity. Qed.

(** A value between two values that round to finite numbers rounds to a
    finite number between them. *)
Lemma round64_sandwich (x lo hi a b : Q) :
  lo <= x <= hi ->
  feq (round64 lo) (Fin a) -> feq (round64 hi) (Fin b) ->
  exists r, round64 x = Fin r /\ a <= r <= b.
Proof.
  intros [L U] Ha Hb.
  pose proof (round64_mono lo x L) as H1.
  pose proof (round64_mono x hi U) as H2.
  destruct (round64 lo) as [a'| | |]; cbn [feq] in Ha; try contradiction.
  destruct (round64 hi) as [b'| | |]; cbn [feq] in Hb; try contradiction.
  destruct (round64 x) as [r| | |]; cbn [fle] in H1, H2; try contradiction.
  exists r. split; [reflexivity|]. lra.
Qed.

(** ** One normalised cell *)

Lemma norm_cell_Fin (n d : Q) :
  0 < d ->
  norm_cell (Fin n) (Fin d) = round_f (fmul (round64 (n / d)) (Fin 100)).
Proof.
  intros Hd. unfold norm_cell, b_mul, b_div. cbn [fdiv].
  assert (E : Qeq_bool d 0 = false).
  { destruct (Qeq_bool d 0) eqn:F; [|reflexivity].
    apply Qeq_bool_iff in F. rewrite F in Hd. now apply Qlt_irrefl in Hd. }
  rewrite E. reflexivity.
Qed.

Lemma norm_cell_range (n d : Q) :
  0 <= n <= d -> 0 < d ->
  exists r, norm_cell (Fin n) (Fin d) = Fin r /\ 0 <= r <= 100.
Proof.
  intros [H0 H1] Hd. rewrite norm_cell_Fin by exact Hd.
  destruct (round64_sandwich (n / d) 0 1 0 1) as (q & Hq & Bq).
  - split.
    + unfold Qdiv. apply Qmult_le_0_compat; [exact H0|].
      apply Qinv_le_0_compat. now apply Qlt_le_weak.
    + apply Qle_shift_div_r; [exact Hd | lra].
  - rewrite round64_0. apply feq_refl.
  - exact round64_1.
  - rewrite Hq. cbn [fmul round_f].
    destruct (round64_sandwich (q * 100) 0 100 0 100) as (r & Hr & Br).
    + split; lra.
    + rewrite round64_0. apply feq_refl.
    + exact round64_100.
    + exists r. split; assumption.
Qed.

Lemma norm_cell_mono (n1 n2 d r1 r2 : Q) :
  0 <= n1 -> n1 <= n2 -> n2 <= d -> 0 < d ->
  norm_cell (Fin n1) (Fin d) = Fin r1 ->
  norm_cell (Fin n2) (Fin d) = Fin r2 ->
  r1 <= r2.
Proof.
  intros H0 H12 H2 Hd. rewrite !norm_cell_Fin by exact Hd.
  assert (Hq : n1 / d <= n2 / d).
  { unfold Qdiv. apply Qmult_le_compat_r; [exact H12|].
    apply Qinv_le_0_compat. now apply Qlt_le_weak. }
  pose proof (round64_mono _ _ Hq) as M.
  destruct (round64 (n1 / d)) as [q1| | |], (round64 (n2 / d)) as [q2| | |];
    cbn [fle] in M; try contradiction; cbn [fmul round_f];
    try (intros; discriminate).
  intros E1 E2.
    assert (Hm : q1 * 100 <= q2 * 100) by lra.
    pose proof (round64_mono _ _ Hm) as M2. rewrite E1, E2 in M2. exact M2.
Qed.

Lemma norm_cell_zero (n d r : Q) :
  n == 0 -> 0 < d -> norm_cell (Fin n) (Fin d) = Fin r -> r == 0.
Proof.
  intros Hn Hd. rewrite norm_cell_Fin by exact Hd.
  assert (E : n / d == 0) by (rewrite Hn; unfold Qdiv; ring).
  pose proof (round64_eq _ _ E) as F. rewrite round64_0 in F.
  destruct (round64 (n / d)) as [q| | |]; cbn [feq] in F; try contradiction.
  cbn [fmul round_f]. intros Hr.
  assert (E2 : q * 100 == 0) by (rewrite F; ring).
  pose proof (round64_eq _ _ E2) as F2. rewrite Hr, round64_0 in F2. exact F2.
Qed.

Lemma norm_cell_full (n d r : Q) :
  n == d -> 0 < d -> norm_cell (Fin n) (Fin d) = Fin r -> r == 100.
Proof.
  intros Hn Hd. rewrite norm_cell_Fin by exact Hd.
  assert (E : n / d == 1).
  { rewrite Hn. field. intros Z. rewrite Z in Hd. now apply Qlt_irrefl in Hd. }
  pose proof (feq_trans _ _ _ (round64_eq _ _ E) round64_1) as F.
  destruct (round64 (n / d)) as [q| | |]; cbn [feq] in F; try contradiction.
  cbn [fmul round_f]. intros Hr.
  assert (E2 : q * 100 == 100) by (rewrite F; ring).
  pose proof (feq_trans _ _ _ (round64_eq _ _ E2) round64_100) as F2.
  rewrite Hr in F2. exact F2.
Qed.

(** ** The difference of two distinct float64 values is not rounded to zero *)

Lemma pow2_grid (c : Z) : (-1074 <= c)%Z ->
  pow2 c == inject_Z (2 ^ (c + 1074)) * pow2 (-1074).
Proof.
  intros H. rewrite <- pow2_Z by lia. rewrite <- pow2_plus. f_equiv. lia.
Qed.

Lemma cexp_ge (q : Q) : (-1074 <= cexp q)%Z.
Proof. unfold cexp. lia. Qed.

Lemma round_pos_grid (q : Q) :
  exists k, round_pos q == inject_Z k * pow2 (-1074).
Proof.
  unfold round_pos. exists (rne (q / pow2 (cexp q)) * 2 ^ (cexp q + 1074))%Z.
  rewrite (pow2_grid (cexp q) (cexp_ge q)) at 2.
  rewrite inject_Z_mult. ring.
Qed.

(** A binary64 number is a whole multiple of the least subnormal. *)
Lemma representable_grid (q : Q) :
  representable q = true -> exists k, q == inject_Z k * pow2 (-1074).
Proof.
  unfold representable, round64.
  destruct (Qcompare q 0) eqn:C; qcmp C.
  - intros _. exists 0%Z. rewrite C. ring.
  - unfold overflow. destruct (Qle_bool _ _); cbn [fneg feqb];
      [discriminate|].
    intros E. apply Qeq_bool_iff in E.
    destruct (round_pos_grid (- q)) as [k Hk]. exists (- k)%Z.
    rewrite inject_Z_opp. rewrite <- E, Hk. ring.
  - unfold overflow. destruct (Qle_bool _ _); cbn [feqb]; [discriminate|].
    intros E. apply Qeq_bool_iff in E.
    destruct (round_pos_grid q) as [k Hk]. exists k. rewrite <- E. exact Hk.
Qed.

Lemma round64_tiny : feq (round64 (pow2 (-1074))) (Fin (pow2 (-1074))).
Proof. vm_compute. reflexivity. Qed.

(** The difference of two distinct binary64 numbers does not round to
    zero (gradual underflow). *)
Lemma float_sub_pos (a b r : Q) :
  representable a = true -> representable b = true -> a < b ->
  round64 (b - a) = Fin r -> 0 < r.
Proof.
  intros Ha Hb Hab Hr.
  destruct (representable_grid a Ha) as [ka Ea].
  destruct (representable_grid b Hb) as [kb Eb].
  pose proof (pow2_pos (-1074)) as P.
  assert (K : (ka < kb)%Z).
  { destruct (Z_lt_le_dec ka kb) as [L|L]; [exact L|]. exfalso.
    rewrite Zle_Qle in L. rewrite Ea, Eb in Hab.
    set (x := inject_Z ka) in *. set (y := inject_Z kb) in *.
    clearbody x y. nra. }
  assert (G : pow2 (-1074) <= b - a).
  { assert (K' : (ka + 1 <= kb)%Z) by lia.
    rewrite Zle_Qle, inject_Z_plus in K'. change (inject_Z 1) with 1 in K'.
    rewrite Ea, Eb.
    set (x := inject_Z ka) in *. set (y := inject_Z kb) in *.
    clearbody x y. nra. }
  pose proof (round64_mono _ _ G) as M. rewrite Hr in M.
  pose proof round64_tiny as T.
  destruct (round64 (pow2 (-1074))) as [t| | |]; cbn [feq] in T;
    try contradiction.
  cbn [fle] in M. lra.
Qed.

(** ** Minimum and maximum of an int64 column *)

Lemma wrap64_id (z : Z) :
  (- 2 ^ 63 <= z < 2 ^ 63)%Z -> wrap64 z = z.
Proof.
  intros H. unfold wrap64. rewrite Z.mod_small; lia.
Qed.

Lemma fold_min_spec (r : list Z) : forall x,
  In (fold_left Z.min r x) (x :: r) /\
  forall v, In v (x :: r) -> (fold_left Z.min r x <= v)%Z.
Proof.
  induction r as [|y r IH]; intros x; simpl.
  - split; [now left | intros v [<-|[]]; lia].
  - destruct (IH (Z.min x y)) as [Hin Hle]. split.
    + destruct Hin as [E|Hin]; [|right; now right].
      rewrite <- E. destruct (Z.min_spec x y) as [[_ ->]|[_ ->]]; auto.
    + intros v [E|[E|Hv]]; [subst v | subst v | apply Hle; now right];
        specialize (Hle (Z.min x y) (or_introl eq_refl)); lia.
Qed.

Lemma fold_max_spec (r : list Z) : forall x,
  In (fold_left Z.max r x) (x :: r) /\
  forall v, In v (x :: r) -> (v <= fold_left Z.max r x)%Z.
Proof.
  induction r as [|y r IH]; intros x; simpl.
  - split; [now left | intros v [<-|[]]; lia].
  - destruct (IH (Z.max x y)) as [Hin Hle]. split.
    + destruct Hin as [E|Hin]; [|right; now right].
      rewrite <- E. destruct (Z.max_spec x y) as [[_ ->]|[_ ->]]; auto.
    + intros v [E|[E|Hv]]; [subst v | subst v | apply Hle; now right];
        specialize (Hle (Z.max x y) (or_introl eq_refl)); lia.
Qed.

Lemma int_min_max (xs : list Z) (v : Z) :
  In v xs ->
  In (int_min xs) xs /\ In (int_max xs) xs /\
  (int_min xs <= v <= int_max xs)%Z.
Proof.
  destruct xs as [|x r]; [intros []|]. intros Hv. unfold int_min, int_max.
  destruct (fold_min_spec r x) as [I1 L1].
  destruct (fold_max_spec r x) as [I2 L2].
  repeat split; auto.
Qed.

Lemma round64_2_63 : feq (round64 (inject_Z (2 ^ 63))) (Fin (inject_Z (2 ^ 63))).
Proof. vm_compute. reflexivity. Qed.

Lemma inject_Z_minus (x y : Z) : inject_Z (x - y) == inject_Z x - inject_Z y.
Proof.
  unfold Z.sub. rewrite inject_Z_plus, inject_Z_opp. reflexivity.
Qed.

Lemma Forall_nth_error {A : Type} (P : A -> Prop) (l : list A) :
  (forall i x, nth_error l i = Some x -> P x) -> Forall P l.
Proof.
  intros H. apply Forall_forall. intros x Hx.
  apply In_nth_error in Hx. destruct Hx as [i Hi]. eauto.
Qed.

Lemma nth_error_lt {A : Type} (l : list A) (i : nat) :
  (i < List.length l)%nat -> exists x, nth_error l i = Some x.
Proof.
  intros H. destruct (nth_error l i) as [x|] eqn:E; [now exists x|].
  apply nth_error_None in E. lia.
Qed.

Lemma Forall_nth {A : Type} (P : A -> Prop) (l : list A) (i : nat) (x : A) :
  Forall P l -> nth_error l i = Some x -> P x.
Proof.
  intros H Hi. rewrite Forall_forall in H. apply H.
  eapply nth_error_In; eauto.
Qed.

(** ** The cells of a normalised column *)

Lemma valid_float_col (xs : list float64) :
  valid_column (Float64Col xs) = true ->
  exists qs, xs = map Fin qs /\ forall q, In q qs -> representable q = true.
Proof.
  cbn [valid_column]. induction xs as [|x xs IH]; simpl; intros H.
  - exists []. split; [reflexivity | intros q []].
  - apply andb_true_iff in H. destruct H as [Hx Hxs].
    destruct (IH Hxs) as (qs & -> & Hq).
    destruct x as [q| | |]; try discriminate.
    exists (q :: qs). split; [reflexivity|].
    intros q' [<-|H']; auto.
Qed.

Lemma cells_float (qs : list Q) : cells (Float64Col (map Fin qs)) = qs.
Proof.
  cbn [cells]. rewrite map_map. cbn [cell_value]. apply map_id.
Qed.

(** What line 33 (or 35) computes for one cell of a valid column with
    [max != min] whose spread is finite: the rounded exact numerator,
    which lies between zero and the spread, over the spread, which is
    positive. *)
Lemma cell_data (c : column) (d : norm_direction) (i : nat) (v : Q) :
  valid_column c = true ->
  nondegenerate64 c = true ->
  no_overflow c = true ->
  nth_error (cells c) i = Some v ->
  exists n dd,
    spread c = Fin dd /\ 0 < dd /\
    feq (round64 (col_max c - col_min c)) (Fin dd) /\
    col_min c < col_max c /\
    col_min c <= v <= col_max c /\
    nth_error (numerator c d) i = Some (round64 n) /\
    n == exact_numerator d v (col_min c) (col_max c).
Proof.
  intros Hv Hd Ho Hi. destruct c as [xs|xs].
  - (* int64 *)
    cbn [cells] in Hi. rewrite nth_error_map in Hi.
    destruct (nth_error xs i) as [z|] eqn:Hz; [|discriminate].
    cbn [option_map] in Hi. injection Hi as <-.
    pose proof (nth_error_In _ _ Hz) as Iz.
    destruct (int_min_max xs z Iz) as (Imn & Imx & Bz).
    cbn [valid_column] in Hv. rewrite forallb_forall in Hv.
    assert (R : forall y, In y xs -> (- 2 ^ 63 <= y < 2 ^ 63)%Z).
    { intros y Hy. specialize (Hv y Hy). unfold in_int64 in Hv.
      apply andb_true_iff in Hv. destruct Hv as [H1 H2].
      apply Z.leb_le in H1. apply Z.ltb_lt in H2. lia. }
    pose proof (R _ Imn) as Rmn. pose proof (R _ Imx) as Rmx.
    pose proof (R _ Iz) as Rz.
    cbn [nondegenerate64] in Hd. apply negb_true_iff, Z.eqb_neq in Hd.
    cbn [no_overflow] in Ho. apply Z.ltb_lt in Ho.
    set (mn := int_min xs) in *. set (mx := int_max xs) in *.
    assert (S1 : (1 <= mx - mn)%Z) by lia.
    destruct (round64_sandwich (inject_Z (mx - mn)) 1 (inject_Z (2 ^ 63))
                1 (inject_Z (2 ^ 63))) as (dd & Hdd & Bdd).
    { split; [change 1 with (inject_Z 1) | ]; rewrite <- Zle_Qle; lia. }
    { exact round64_1. }
    { exact round64_2_63. }
    exists (inject_Z (match d with
                      | ASCENDING_GOOD => z - mn
                      | DESCENDING_GOOD => mx - z
                      end)), dd.
    cbn [spread col_min col_max numerator]. fold mn mx.
    unfold of_int. rewrite (wrap64_id (mx - mn)) by lia.
    split; [exact Hdd|]. split; [lra|]. split.
    { rewrite <- Hdd. apply round64_eq. rewrite inject_Z_minus. reflexivity. }
    split; [rewrite <- Zlt_Qlt; lia|].
    split; [rewrite <- !Zle_Qle; lia|]. split.
    + rewrite nth_error_map, Hz. cbn [option_map].
      destruct d; rewrite wrap64_id by lia; reflexivity.
    + destruct d; cbn [exact_numerator]; rewrite inject_Z_minus; reflexivity.
  - (* float64 *)
    destruct (valid_float_col xs Hv) as (qs & -> & Hrep).
    rewrite cells_float in Hi.
    destruct qs as [|q r]; [destruct i; discriminate|].
    destruct (min_max_Fin q r) as (mn & mx & Hmn & Hmx & Imn & Imx & Hb).
    pose proof (nth_error_In _ _ Hi) as Iv.
    cbn [nondegenerate64] in Hd. rewrite Hmn, Hmx in Hd. cbn [feqb] in Hd.
    apply negb_true_iff in Hd. apply Qeq_bool_neq in Hd.
    assert (Hlt : mn < mx).
    { destruct (Hb mx Imx) as [Hle _]. apply Qle_lteq in Hle.
      destruct Hle as [L|E]; [exact L|]. exfalso. apply Hd. now symmetry. }
    cbn [no_overflow] in Ho. rewrite Hmn, Hmx in Ho.
    unfold b_sub in Ho. cbn [fsub fadd fneg round_f] in Ho.
    destruct (round64 (mx + - mn)) as [dd| | |] eqn:Hdd; try discriminate.
    exists (exact_numerator d v mn mx), dd.
    cbn [spread col_min col_max numerator]. rewrite Hmn, Hmx.
    cbn [cell_value]. unfold b_sub at 1. cbn [fsub fadd fneg round_f].
    split; [exact Hdd|]. split.
    { apply (float_sub_pos mn mx dd); auto. }
    split; [unfold Qminus; rewrite Hdd; apply feq_refl|].
    split; [exact Hlt|]. split; [now apply Hb|]. split.
    + rewrite nth_error_map, (map_nth_error Fin i (q :: r) Hi).
      cbn [option_map]. destruct d; reflexivity.
    + reflexivity.
Qed.

Lemma normalize64_nth (c : column) (d : norm_direction) (i : nat)
  (num : float64) :
  nth_error (numerator c d) i = Some num ->
  nth_error (normalize64 c d) i = Some (norm_cell num (spread c)).
Proof.
  intros H. unfold normalize64. rewrite nth_error_map, H. reflexivity.
Qed.

Lemma normalize64_length (c : column) (d : norm_direction) :
  List.length (normalize64 c d) = List.length (cells c).
Proof.
  unfold normalize64. rewrite length_map.
  destruct c; cbn [numerator cells]; now rewrite !length_map.
Qed.

(** One normalised cell of a valid column with [max != min] and a finite
    spread. *)
Lemma normalized_cell (c : column) (d : norm_direction) (i : nat) (v : Q) :
  valid_column c = true ->
  nondegenerate64 c = true ->
  no_overflow c = true ->
  nth_error (cells c) i = Some v ->
  exists n nn dd y,
    spread c = Fin dd /\ 0 < dd /\
    feq (round64 (col_max c - col_min c)) (Fin dd) /\
    col_min c < col_max c /\ col_min c <= v <= col_max c /\
    n == exact_numerator d v (col_min c) (col_max c) /\
    round64 n = Fin nn /\ 0 <= nn <= dd /\
    norm_cell (Fin nn) (Fin dd) = Fin y /\ 0 <= y <= 100 /\
    nth_error (normalize64 c d) i = Some (Fin y).
Proof.
  intros Hv Hd Ho Hi.
  destruct (cell_data c d i v Hv Hd Ho Hi)
    as (n & dd & Hsp & Hdd & Hfe & Hlt & Hb & Hnum & Hn).
  assert (Bn : 0 <= n <= col_max c - col_min c).
  { rewrite Hn. destruct d; cbn [exact_numerator]; lra. }
  destruct (round64_sandwich n 0 (col_max c - col_min c) 0 dd Bn)
    as (nn & Hnn & Bnn); [rewrite round64_0; apply feq_refl | exact Hfe |].
  destruct (norm_cell_range nn dd Bnn Hdd) as (y & Hy & By).
  exists n, nn, dd, y. repeat split; try assumption; try tauto.
  rewrite (normalize64_nth c d i _ Hnum), Hsp, Hnn, Hy. reflexivity.
Qed.

(** C2, as the code has it.  A column of finite numbers with [max != min]
    whose spread [max - min] is computed without wrap-around ([int64])
    or overflow ([float64]) is normalised to a column of the same length
    whose cells all lie in [0,100].  Each cell is the formula of its
    direction evaluated in float64: the rounded numerator ([v - min], or
    [max - v] when descending is good) divided by the rounded spread and
    multiplied by 100, each operation rounded.  The minimum goes to 0
    and the maximum to 100 when ascending is good, the maximum to 0 and
    the minimum to 100 when descending is good. *)
Theorem normalize64_range (c : column) (d : norm_direction) :
  valid_column c = true ->
  nondegenerate64 c = true ->
  no_overflow c = true ->
  List.length (normalize64 c d) = List.length (cells c) /\
  Forall in_0_100 (normalize64 c d) /\
  forall i v, nth_error (cells c) i = Some v ->
    exists n y,
      n == exact_numerator d v (col_min c) (col_max c) /\
      feq (spread c) (round64 (col_max c - col_min c)) /\
      nth_error (normalize64 c d) i =
        Some (b_mul (b_div (round64 n) (spread c)) (Fin 100)) /\
      b_mul (b_div (round64 n) (spread c)) (Fin 100) = Fin y /\
      0 <= y <= 100 /\
      (v == col_min c ->
       y == match d with ASCENDING_GOOD => 0 | DESCENDING_GOOD => 100 end) /\
      (v == col_max c ->
       y == match d with ASCENDING_GOOD => 100 | DESCENDING_GOOD => 0 end).
Proof.
  intros Hv Hd Ho. split; [apply normalize64_length|]. split.
  - apply Forall_forall. intros y Hy.
    apply In_nth_error in Hy. destruct Hy as [i Hi].
    assert (Hlt : (i < List.length (cells c))%nat).
    { rewrite <- (normalize64_length c d). apply nth_error_Some. congruence. }
    destruct (nth_error (cells c) i) as [v|] eqn:Hc;
      [|apply nth_error_None in Hc; lia].
    destruct (normalized_cell c d i v Hv Hd Ho Hc)
      as (n & nn & dd & y' & _ & _ & _ & _ & _ & _ & _ & _ & _ & By & Hn).
    rewrite Hi in Hn. injection Hn as ->. exact By.
  - intros i v Hc.
    destruct (normalized_cell c d i v Hv Hd Ho Hc)
      as (n & nn & dd & y & Hsp & Hdd & Hfe & Hlt & Hb & Hn & Hnn & Bnn & Hy
          & By & Hnth).
    exists n, y. split; [exact Hn|]. split; [rewrite Hsp; now apply feq_sym|].
    fold (norm_cell (round64 n) (spread c)). rewrite Hsp, Hnn, Hy.
    split; [exact Hnth|]. split; [reflexivity|]. split; [exact By|].
    assert (Z0 : n == 0 -> y == 0).
    { intros E. apply (norm_cell_zero nn dd y); auto.
      pose proof (round64_eq _ _ E) as F. rewrite Hnn, round64_0 in F.
      exact F. }
    assert (Z1 : n == col_max c - col_min c -> y == 100).
    { intros E. apply (norm_cell_full nn dd y); auto.
      pose proof (feq_trans _ _ _ (round64_eq _ _ E) Hfe) as F.
      rewrite Hnn in F. exact F. }
    split; intros E; destruct d; cbn [exact_numerator] in Hn;
      (apply Z0 || apply Z1); rewrite Hn, E; ring.
Qed.

Lemma normalize64_range_witness :
  List.length (normalize64 sample_accidents DESCENDING_GOOD) =
    List.length (cells sample_accidents) /\
  Forall in_0_100 (normalize64 sample_accidents DESCENDING_GOOD).
Proof.
  destruct (normalize64_range sample_accidents DESCENDING_GOOD)
    as (H1 & H2 & _); [vm_compute; reflexivity ..|].
  split; [exact H1 | exact H2].
Defined.

(** C2, as stated, fails.  The [int64] column -5e18, 0, 5e18 has
    [max != min], but [max - min] wraps around to a negative number and
    the middle cell is normalised to about -59.19.  The [float64] column
    -2^1023, 0, 2^1023 has [max != min], but [max - min] overflows to
    infinity: the maximum is normalised to NaN, not to 100. *)
Lemma normalize64_out_of_range :
  valid_column wide_counts = true /\
  nondegenerate64 wide_counts = true /\
  (exists y, nth_error (normalize64 wide_counts ASCENDING_GOOD) 1 =
               Some (Fin y) /\ y < 0) /\
  ~ Forall in_0_100 (normalize64 wide_counts ASCENDING_GOOD) /\
  valid_column wide_speeds = true /\
  nondegenerate64 wide_speeds = true /\
  normalize64 wide_speeds ASCENDING_GOOD = [Fin 0; Fin 0; NaN] /\
  ~ Forall in_0_100 (normalize64 wide_speeds ASCENDING_GOOD).
Proof.
  split; [vm_compute; reflexivity|]. split; [vm_compute; reflexivity|].
  assert (H1 : exists y,
             nth_error (normalize64 wide_counts ASCENDING_GOOD) 1 =
               Some (Fin y) /\ y < 0).
  { eexists. split; [vm_compute; reflexivity | vm_compute; reflexivity]. }
  split; [exact H1|]. split.
  { intros F. destruct H1 as (y & Hy & Hneg).
    pose proof (Forall_nth _ _ _ _ F Hy) as B. cbn [in_0_100] in B. lra. }
  split; [vm_compute; reflexivity|]. split; [vm_compute; reflexivity|].
  assert (H2 : normalize64 wide_speeds ASCENDING_GOOD = [Fin 0; Fin 0; NaN])
    by (vm_compute; reflexivity).
  split; [exact H2|].
  rewrite H2. intros F. inversion F as [|? ? _ F1]. inversion F1 as [|? ? _ F2].
  inversion F2 as [|? ? B _]. exact B.
Qed.

(** C5, as the code has it.  In a column of finite numbers with
    [max != min] and a spread computed without wrap-around or overflow,
    a row with a higher (or equal) raw value never has a lower
    normalised value when ascending is good (speed, transit), and never
    a higher one when descending is good (accidents).  Rounding can make
    the normalised values of two distinct raw values equal. *)
Theorem normalize64_monotone (c : column) (i j : nat) (vi vj : Q) :
  valid_column c = true ->
  nondegenerate64 c = true ->
  no_overflow c = true ->
  nth_error (cells c) i = Some vi ->
  nth_error (cells c) j = Some vj ->
  vi <= vj ->
  exists ui uj di dj,
    nth_error (normalize64 c ASCENDING_GOOD) i = Some (Fin ui) /\
    nth_error (normalize64 c ASCENDING_GOOD) j = Some (Fin uj) /\
    ui <= uj /\
    nth_error (normalize64 c DESCENDING_GOOD) i = Some (Fin di) /\
    nth_error (normalize64 c DESCENDING_GOOD) j = Some (Fin dj) /\
    dj <= di.
Proof.
  intros Hv Hd Ho Hi Hj Hle.
  destruct (normalized_cell c ASCENDING_GOOD i vi Hv Hd Ho Hi)
    as (n1 & nn1 & dd & y1 & Hsp & Hdd & _ & _ & Hb1 & Hn1 & Hnn1 & Bnn1 & Hy1
        & _ & Hnth1).
  destruct (normalized_cell c ASCENDING_GOOD j vj Hv Hd Ho Hj)
    as (n2 & nn2 & dd2 & y2 & Hsp2 & _ & _ & _ & Hb2 & Hn2 & Hnn2 & Bnn2 & Hy2
        & _ & Hnth2).
  destruct (normalized_cell c DESCENDING_GOOD i vi Hv Hd Ho Hi)
    as (n3 & nn3 & dd3 & y3 & Hsp3 & _ & _ & _ & _ & Hn3 & Hnn3 & Bnn3 & Hy3
        & _ & Hnth3).
  destruct (normalized_cell c DESCENDING_GOOD j vj Hv Hd Ho Hj)
    as (n4 & nn4 & dd4 & y4 & Hsp4 & _ & _ & _ & _ & Hn4 & Hnn4 & Bnn4 & Hy4
        & _ & Hnth4).
  rewrite Hsp in Hsp2, Hsp3, Hsp4.
  injection Hsp2 as <-. injection Hsp3 as <-. injection Hsp4 as <-.
  cbn [exact_numerator] in Hn1, Hn2, Hn3, Hn4.
  exists y1, y2, y3, y4. repeat split; try assumption.
  - assert (L : n1 <= n2) by (rewrite Hn1, Hn2; lra).
    pose proof (round64_mono _ _ L) as M. rewrite Hnn1, Hnn2 in M.
    cbn [fle] in M.
    apply (norm_cell_mono nn1 nn2 dd y1 y2); tauto.
  - assert (L : n4 <= n3) by (rewrite Hn3, Hn4; lra).
    pose proof (round64_mono _ _ L) as M. rewrite Hnn3, Hnn4 in M.
    cbn [fle] in M.
    apply (norm_cell_mono nn4 nn3 dd y4 y3); tauto.
Qed.

Lemma normalize64_monotone_witness :
  exists ui uj di dj,
    nth_error (normalize64 sample_speed ASCENDING_GOOD) 0 = Some (Fin ui) /\
    nth_error (normalize64 sample_speed ASCENDING_GOOD) 2 = Some (Fin uj) /\
    ui <= uj /\
    nth_error (normalize64 sample_speed DESCENDING_GOOD) 0 = Some (Fin di) /\
    nth_error (normalize64 sample_speed DESCENDING_GOOD) 2 = Some (Fin dj) /\
    dj <= di.
Proof.
  apply (normalize64_monotone sample_speed 0 2 30 45);
    try (vm_compute; reflexivity).
  unfold Qle; simpl; lia.
Defined.

(** C5, as stated, fails.  In the column 0, 90.99999999999999, 91, 101
    the third speed is strictly higher than the second, and both are
    normalised to the same float64 (90.0990099009901): the increase is
    not strict.  In the [int64] column -5e18, 0, 5e18, whose spread
    wraps around, the second cell is higher than the first and its
    normalised value is lower. *)
Lemma normalized_not_strictly_monotone :
  valid_column close_speeds = true /\
  nondegenerate64 close_speeds = true /\
  no_overflow close_speeds = true /\
  nth_error (cells close_speeds) 1 = Some (91 - pow2 (-46)) /\
  nth_error (cells close_speeds) 2 = Some 91 /\
  91 - pow2 (-46) < 91 /\
  (exists y,
     nth_error (normalize64 close_speeds ASCENDING_GOOD) 1 = Some (Fin y) /\
     nth_error (normalize64 close_speeds ASCENDING_GOOD) 2 = Some (Fin y)) /\
  valid_column wide_counts = true /\
  nondegenerate64 wide_counts = true /\
  cells wide_counts =
    [inject_Z (-5000000000000000000); 0; inject_Z 5000000000000000000] /\
  exists u0 u1,
    nth_error (normalize64 wide_counts ASCENDING_GOOD) 0 = Some (Fin u0) /\
    nth_error (normalize64 wide_counts ASCENDING_GOOD) 1 = Some (Fin u1) /\
    u1 < u0.
Proof.
  do 6 (split; [vm_compute; reflexivity|]).
  split; [eexists; split; vm_compute; reflexivity|].
  do 3 (split; [vm_compute; reflexivity|]).
  eexists. eexists. split; [vm_compute; reflexivity|].
  split; vm_compute; reflexivity.
Qed.




(** A column of finite numbers with [max == min] is normalised to NaN in
    every cell: numerator and spread are both zero. *)
Lemma normalize64_degenerate (c : column) (d : norm_direction) :
  valid_column c = true ->
  nondegenerate64 c = false ->
  Forall (eq NaN) (normalize64 c d).
Proof.
  intros Hv Hd. apply Forall_forall. intros y Hy.
  unfold normalize64 in Hy. apply in_map_iff in Hy.
  destruct Hy as (n & <- & Hn). destruct c as [xs|xs].
  - cbn [numerator] in Hn. apply in_map_iff in Hn.
    destruct Hn as (v & <- & Iv).
    destruct (int_min_max xs v Iv) as (_ & _ & Bz).
    cbn [nondegenerate64] in Hd. apply negb_false_iff, Z.eqb_eq in Hd.
    cbn [spread]. rewrite Hd in *.
    assert (E : v = int_min xs) by lia. rewrite E, Z.sub_diag.
    destruct d; reflexivity.
  - destruct (valid_float_col xs Hv) as (qs & -> & _).
    destruct qs as [|q r]; [vm_compute in Hd; discriminate|].
    destruct (min_max_Fin q r) as (mn & mx & Hmn & Hmx & _ & _ & Hb).
    cbn [nondegenerate64] in Hd. rewrite Hmn, Hmx in Hd. cbn [feqb] in Hd.
    apply negb_false_iff, Qeq_bool_eq in Hd.
    cbn [numerator] in Hn. rewrite map_map in Hn. apply in_map_iff in Hn.
    destruct Hn as (v & <- & Iv). specialize (Hb v Iv).
    cbn [spread]. rewrite Hmn, Hmx. unfold b_sub.
    cbn [fsub fadd fneg round_f].
    assert (Z0 : forall x, x == 0 -> exists r, round64 x = Fin r /\ r == 0).
    { intros x E. pose proof (round64_eq _ _ E) as G. rewrite round64_0 in G.
      destruct (round64 x) as [r'| | |]; cbn [feq] in G; try contradiction.
      now exists r'. }
    destruct (Z0 (mx + - mn)) as (dd & -> & Edd); [lra|].
    assert (N : forall x, x == 0 ->
              b_mul (b_div (round64 x) (Fin dd)) (Fin 100) = NaN).
    { intros x E. destruct (Z0 x E) as (nn & -> & Enn).
      unfold b_mul, b_div. cbn [fdiv].
      apply Qeq_bool_iff in Edd. rewrite Edd.
      apply Qeq_alt in Enn. rewrite Enn. reflexivity. }
    destruct d; symmetry; apply N; lra.
Qed.

(** ** The weighted score *)

Lemma traffic_score64_nth (s t a : column) (i : nat) (x y z : float64) :
  nth_error (normalize64 s ASCENDING_GOOD) i = Some x ->
  nth_error (normalize64 t ASCENDING_GOOD) i = Some y ->
  nth_error (normalize64 a DESCENDING_GOOD) i = Some z ->
  nth_error (traffic_score64 s t a) i = Some (score_cell x y z).
Proof.
  intros Hx Hy Hz. unfold traffic_score64, score_cell.
  apply zip_with_nth_error; [apply zip_with_nth_error|];
    rewrite nth_error_map; rewrite ?Hx, ?Hy, ?Hz; reflexivity.
Qed.

Lemma traffic_score64_length (s t a : column) :
  List.length (cells s) = List.length (cells t) ->
  List.length (cells t) = List.length (cells a) ->
  List.length (traffic_score64 s t a) = List.length (cells s).
Proof.
  intros H1 H2. unfold traffic_score64.
  rewrite zip_with_length; rewrite ?zip_with_length;
    rewrite ?length_map, ?normalize64_length; congruence.
Qed.

Lemma weights_facts :
  exists ws wt,
    weight_speed = Fin ws /\ weight_transit = Fin wt /\
    weight_safety = Fin wt /\ 0 <= ws /\ 0 <= wt /\
    feq (round64 (100 * ws)) (Fin 40) /\
    feq (round64 (100 * wt)) (Fin 30) /\
    feq (round64 (40 + 30)) (Fin 70) /\
    feq (round64 (70 + 30)) (Fin 100).
Proof.
  eexists. eexists.
  split; [vm_compute; reflexivity|]. split; [vm_compute; reflexivity|].
  split; [vm_compute; reflexivity|].
  split; [vm_compute; discriminate|]. split; [vm_compute; discriminate|].
  split; [vm_compute; reflexivity|]. split; [vm_compute; reflexivity|].
  split; vm_compute; reflexivity.
Qed.

Lemma round64_Fin_mono (x y a b : Q) :
  x <= y -> round64 x = Fin a -> round64 y = Fin b -> a <= b.
Proof.
  intros L Ha Hb. pose proof (round64_mono x y L) as M.
  rewrite Ha, Hb in M. exact M.
Qed.

(** One row's score from three normalised values in [0,100]. *)
Lemma score_cell_parts (x y z : Q) :
  0 <= x <= 100 -> 0 <= y <= 100 -> 0 <= z <= 100 ->
  exists ws wt p1 p2 p3 p12 r,
    weight_speed = Fin ws /\ weight_transit = Fin wt /\
    weight_safety = Fin wt /\ 0 <= ws /\ 0 <= wt /\
    round64 (x * ws) = Fin p1 /\ 0 <= p1 <= 40 /\
    round64 (y * wt) = Fin p2 /\ 0 <= p2 <= 30 /\
    round64 (z * wt) = Fin p3 /\ 0 <= p3 <= 30 /\
    round64 (p1 + p2) = Fin p12 /\ 0 <= p12 <= 70 /\
    round64 (p12 + p3) = Fin r /\ 0 <= r <= 100 /\
    score_cell (Fin x) (Fin y) (Fin z) = Fin r.
Proof.
  intros Bx By Bz.
  destruct weights_facts
    as (ws & wt & Hs & Ht & Ha & Ps & Pt & F40 & F30 & F70 & F100).
  assert (Z0 : feq (round64 0) (Fin 0)) by (rewrite round64_0; apply feq_refl).
  destruct (round64_sandwich (x * ws) 0 (100 * ws) 0 40)
    as (p1 & H1 & B1); [nra | exact Z0 | exact F40 |].
  destruct (round64_sandwich (y * wt) 0 (100 * wt) 0 30)
    as (p2 & H2 & B2); [nra | exact Z0 | exact F30 |].
  destruct (round64_sandwich (z * wt) 0 (100 * wt) 0 30)
    as (p3 & H3 & B3); [nra | exact Z0 | exact F30 |].
  destruct (round64_sandwich (p1 + p2) 0 (40 + 30) 0 70)
    as (p12 & H12 & B12); [lra | exact Z0 | exact F70 |].
  destruct (round64_sandwich (p12 + p3) 0 (70 + 30) 0 100)
    as (r & Hr & Br); [lra | exact Z0 | exact F100 |].
  exists ws, wt, p1, p2, p3, p12, r.
  repeat (split; [assumption|]). 
  unfold score_cell. rewrite Hs, Ht, Ha. unfold b_add, b_mul.
  cbn [fmul round_f]. rewrite H1, H2, H3. cbn [fadd round_f].
  rewrite H12. cbn [fadd round_f]. exact Hr.
Qed.

Lemma score_cell_range (x y z : Q) :
  0 <= x <= 100 -> 0 <= y <= 100 -> 0 <= z <= 100 ->
  exists r, score_cell (Fin x) (Fin y) (Fin z) = Fin r /\ 0 <= r <= 100.
Proof.
  intros Bx By Bz.
  destruct (score_cell_parts x y z Bx By Bz)
    as (ws & wt & p1 & p2 & p3 & p12 & r & H).
  exists r. tauto.
Qed.

Lemma score_cell_mono (x y z x' y' z' r r' : Q) :
  0 <= x -> x <= x' -> x' <= 100 ->
  0 <= y -> y <= y' -> y' <= 100 ->
  0 <= z -> z <= z' -> z' <= 100 ->
  score_cell (Fin x) (Fin y) (Fin z) = Fin r ->
  score_cell (Fin x') (Fin y') (Fin z') = Fin r' ->
  r <= r'.
Proof.
  intros X0 X1 X2 Y0 Y1 Y2 Z0 Z1 Z2 Hr Hr'.
  destruct (score_cell_parts x y z)
    as (ws & wt & p1 & p2 & p3 & p12 & r0 & Hs & Ht & Ha & Ps & Pt
        & H1 & B1 & H2 & B2 & H3 & B3 & H12 & B12 & H0 & B0 & E);
    try (split; lra).
  destruct (score_cell_parts x' y' z')
    as (ws' & wt' & q1 & q2 & q3 & q12 & r0' & Hs' & Ht' & Ha' & _ & _
        & G1 & C1 & G2 & C2 & G3 & C3 & G12 & C12 & G0 & C0 & E');
    try (split; lra).
  rewrite Hs in Hs'. injection Hs' as <-.
  rewrite Ht in Ht'. injection Ht' as <-.
  rewrite E in Hr. injection Hr as <-.
  rewrite E' in Hr'. injection Hr' as <-.
  assert (L1 : p1 <= q1) by (apply (round64_Fin_mono (x * ws) (x' * ws)); auto; nra).
  assert (L2 : p2 <= q2) by (apply (round64_Fin_mono (y * wt) (y' * wt)); auto; nra).
  assert (L3 : p3 <= q3) by (apply (round64_Fin_mono (z * wt) (z' * wt)); auto; nra).
  assert (L12 : p12 <= q12)
    by (apply (round64_Fin_mono (p1 + p2) (q1 + q2)); auto; lra).
  apply (round64_Fin_mono (p12 + p3) (q12 + q3)); auto; lra.
Qed.

Lemma fadd_NaN_l (y : float64) : fadd NaN y = NaN.
Proof. destruct y; reflexivity. Qed.

Lemma fadd_NaN_r (x : float64) : fadd x NaN = NaN.
Proof. destruct x; reflexivity. Qed.

Lemma score_cell_nan (x y z : float64) :
  x = NaN \/ y = NaN \/ z = NaN -> score_cell x y z = NaN.
Proof.
  destruct weights_facts as (ws & wt & Hs & Ht & Ha & _).
  unfold score_cell. rewrite Hs, Ht, Ha. unfold b_add, b_mul.
  intros [-> | [-> | ->]]; cbn [fmul round_f];
    rewrite ?fadd_NaN_l, ?fadd_NaN_r; cbn [round_f];
    rewrite ?fadd_NaN_l, ?fadd_NaN_r; reflexivity.
Qed.

Lemma score_row (s t a : column) (i : nat) :
  List.length (cells s) = List.length (cells t) ->
  List.length (cells t) = List.length (cells a) ->
  (i < List.length (cells s))%nat ->
  exists x y z,
    nth_error (normalize64 s ASCENDING_GOOD) i = Some x /\
    nth_error (normalize64 t ASCENDING_GOOD) i = Some y /\
    nth_error (normalize64 a DESCENDING_GOOD) i = Some z /\
    nth_error (traffic_score64 s t a) i = Some (score_cell x y z).
Proof.
  intros L1 L2 Hi.
  destruct (nth_error_lt (normalize64 s ASCENDING_GOOD) i) as [x Hx];
    [rewrite normalize64_length; lia|].
  destruct (nth_error_lt (normalize64 t ASCENDING_GOOD) i) as [y Hy];
    [rewrite normalize64_length; lia|].
  destruct (nth_error_lt (normalize64 a DESCENDING_GOOD) i) as [z Hz];
    [rewrite normalize64_length; lia|].
  exists x, y, z. repeat split; auto. now apply traffic_score64_nth.
Qed.

(** C1, as the code has it.  For three raw columns of finite numbers with
    one length, the score column has that length and each row's score is
    [normalized_speed * 0.4 + normalized_transit * 0.3 +
    normalized_safety * 0.3], with the float64 weights 0.4, 0.3, 0.3,
    evaluated in float64 from left to right.  When each raw column has
    [max != min] and a spread computed without wrap-around or overflow,
    the three normalised columns and every score lie in [0,100].  When
    some raw column has [max == min], every score is NaN. *)
Theorem traffic_score64_weighted (s t a : column) :
  valid_column s = true -> valid_column t = true -> valid_column a = true ->
  List.length (cells s) = List.length (cells t) ->
  List.length (cells t) = List.length (cells a) ->
  List.length (traffic_score64 s t a) = List.length (cells s) /\
  (forall i, (i < List.length (cells s))%nat ->
     exists x y z,
       nth_error (normalize64 s ASCENDING_GOOD) i = Some x /\
       nth_error (normalize64 t ASCENDING_GOOD) i = Some y /\
       nth_error (normalize64 a DESCENDING_GOOD) i = Some z /\
       nth_error (traffic_score64 s t a) i =
         Some (b_add (b_add (b_mul x (round64 (4 # 10)))
                            (b_mul y (round64 (3 # 10))))
                     (b_mul z (round64 (3 # 10))))) /\
  (nondegenerate64 s = true -> no_overflow s = true ->
   nondegenerate64 t = true -> no_overflow t = true ->
   nondegenerate64 a = true -> no_overflow a = true ->
   Forall in_0_100 (normalize64 s ASCENDING_GOOD) /\
   Forall in_0_100 (normalize64 t ASCENDING_GOOD) /\
   Forall in_0_100 (normalize64 a DESCENDING_GOOD) /\
   Forall in_0_100 (traffic_score64 s t a)) /\
  (nondegenerate64 s = false \/ nondegenerate64 t = false \/
   nondegenerate64 a = false ->
   Forall (eq NaN) (traffic_score64 s t a)).
Proof.
  intros Vs Vt Va L1 L2.
  split; [now apply traffic_score64_length|]. split; [|split].
  - intros i Hi. exact (score_row s t a i L1 L2 Hi).
  - intros Ds Os Dt Ot Da Oa.
    destruct (normalize64_range s ASCENDING_GOOD Vs Ds Os) as (_ & Rs & _).
    destruct (normalize64_range t ASCENDING_GOOD Vt Dt Ot) as (_ & Rt & _).
    destruct (normalize64_range a DESCENDING_GOOD Va Da Oa) as (_ & Ra & _).
    repeat (split; [assumption|]).
    apply Forall_nth_error. intros i r Hr.
    assert (Hi : (i < List.length (cells s))%nat).
    { rewrite <- (traffic_score64_length s t a L1 L2).
      apply nth_error_Some. congruence. }
    destruct (score_row s t a i L1 L2 Hi) as (x & y & z & Hx & Hy & Hz & Hs).
    pose proof (Forall_nth _ _ _ _ Rs Hx) as Bx.
    pose proof (Forall_nth _ _ _ _ Rt Hy) as By.
    pose proof (Forall_nth _ _ _ _ Ra Hz) as Bz.
    destruct x as [x| | |], y as [y| | |], z as [z| | |];
      cbn [in_0_100] in Bx, By, Bz; try contradiction.
    destruct (score_cell_range x y z Bx By Bz) as (r' & E & Br).
    rewrite Hs, E in Hr. injection Hr as <-. exact Br.
  - intros Hdeg. apply Forall_nth_error. intros i r Hr.
    assert (Hi : (i < List.length (cells s))%nat).
    { rewrite <- (traffic_score64_length s t a L1 L2).
      apply nth_error_Some. congruence. }
    destruct (score_row s t a i L1 L2 Hi) as (x & y & z & Hx & Hy & Hz & Hs).
    rewrite Hs in Hr. injection Hr as <-. symmetry.
    apply score_cell_nan.
    destruct Hdeg as [D|[D|D]]; [left | right; left | right; right];
      symmetry.
    + exact (Forall_nth _ _ _ _ (normalize64_degenerate s _ Vs D) Hx).
    + exact (Forall_nth _ _ _ _ (normalize64_degenerate t _ Vt D) Hy).
    + exact (Forall_nth _ _ _ _ (normalize64_degenerate a _ Va D) Hz).
Qed.

Lemma traffic_score64_weighted_witness :
  Forall in_0_100
    (traffic_score64 sample_speed sample_transit sample_accidents).
Proof.
  destruct (traffic_score64_weighted sample_speed sample_transit
              sample_accidents) as (_ & _ & H & _);
    [vm_compute; reflexivity ..|].
  apply H; vm_compute; reflexivity.
Defined.

(** C1, as stated, fails.  A dataset of one row is non-empty, its raw
    metrics are finite numbers, and its score is NaN, which is not in
    [0,100].  With the [int64] speeds -5e18, 0, 5e18, whose spread wraps
    around, the second row scores about -23.68. *)
Lemma score_out_of_range :
  valid_column one_row_speed = true /\
  valid_column one_row_transit = true /\
  valid_column one_row_accidents = true /\
  cells one_row_speed = [30] /\
  traffic_score64 one_row_speed one_row_transit one_row_accidents = [NaN] /\
  ~ Forall in_0_100
      (traffic_score64 one_row_speed one_row_transit one_row_accidents) /\
  valid_column wide_counts = true /\
  valid_column low_transit = true /\
  valid_column high_accidents = true /\
  nondegenerate64 wide_counts = true /\
  nondegenerate64 low_transit = true /\
  nondegenerate64 high_accidents = true /\
  exists r,
    nth_error (traffic_score64 wide_counts low_transit high_accidents) 1 =
      Some (Fin r) /\
    r < 0.
Proof.
  assert (H : traffic_score64 one_row_speed one_row_transit
                one_row_accidents = [NaN]) by (vm_compute; reflexivity).
  do 4 (split; [vm_compute; reflexivity|]).
  split; [exact H|]. split.
  { rewrite H. intros F. inversion F as [|? ? B _]. exact B. }
  do 6 (split; [vm_compute; reflexivity|]).
  eexists. split; vm_compute; reflexivity.
Qed.

(* ================================================================= *)
(** * Further properties of the script *)

(** ** What scoring does to the frame *)

Lemma calculate_traffic_score_inv (df df' : DataFrame) :
  calculate_traffic_score df = Ok df' ->
  exists s t a ns nt na total,
    getitem df col_speed = Ok s /\
    getitem df col_transit = Ok t /\
    getitem df col_accidents = Ok a /\
    Series_normalize s ASCENDING_GOOD = Ok ns /\
    Series_normalize t ASCENDING_GOOD = Ok nt /\
    Series_normalize a DESCENDING_GOOD = Ok na /\
    df' = with_scores df ns nt na total.
Proof.
  unfold calculate_traffic_score.
  destruct (getitem df col_speed) as [s|e] eqn:Hs; cbn [bind]; [|discriminate].
  destruct (Series_normalize s ASCENDING_GOOD) as [ns|e] eqn:Hns;
    cbn [bind]; [|discriminate].
  read_back.
  destruct (getitem df col_transit) as [t|e] eqn:Ht; cbn [bind]; [|discriminate].
  destruct (Series_normalize t ASCENDING_GOOD) as [nt|e] eqn:Hnt;
    cbn [bind]; [|discriminate].
  read_back.
  destruct (getitem df col_accidents) as [a|e] eqn:Ha;
    cbn [bind]; [|discriminate].
  destruct (Series_normalize a DESCENDING_GOOD) as [na|e] eqn:Hna;
    cbn [bind]; [|discriminate].
  read_back.
  change (dict_getitem weights col_speed) with (Ok (Fin (4 # 10))).
  change (dict_getitem weights col_transit) with (Ok (Fin (3 # 10))).
  change (dict_getitem weights col_accidents) with (Ok (Fin (3 # 10))).
  cbn [bind].
  destruct (Series_mul ns (Fin (4 # 10))) as [p1|e]; cbn [bind]; [|discriminate].
  destruct (Series_mul nt (Fin (3 # 10))) as [p2|e]; cbn [bind]; [|discriminate].
  destruct (Series_add p1 p2) as [p12|e]; cbn [bind]; [|discriminate].
  destruct (Series_mul na (Fin (3 # 10))) as [p3|e]; cbn [bind]; [|discriminate].
  destruct (Series_add p12 p3) as [total|e]; cbn [bind]; [|discriminate].
  intros [= <-]. exists s, t, a, ns, nt, na, total.
  repeat split; assumption || reflexivity.
Qed.

Lemma with_scores_getitem_other (df : DataFrame) (ns nt na total : Series)
  (k : string) :
  ~ In k new_columns ->
  getitem (with_scores df ns nt na total) k = getitem df k.
Proof.
  intros Hk. unfold with_scores, new_columns in *. simpl in Hk.
  repeat rewrite getitem_setitem_other; try reflexivity;
    apply String.eqb_neq; intros E; apply Hk; subst k; auto.
Qed.

(** X1.  Whenever [calculate_traffic_score] returns, every column other
    than the three normalised ones and the score reads as before: the raw
    metrics, the region names and any further column of the file are
    left alone. *)
Theorem score_keeps_other_columns (df df' : DataFrame) (k : string) :
  calculate_traffic_score df = Ok df' ->
  ~ In k new_columns ->
  getitem df' k = getitem df k.
Proof.
  intros Hok Hk.
  destruct (calculate_traffic_score_inv df df' Hok)
    as (s & t & a & ns & nt & na & total & _ & _ & _ & _ & _ & _ & ->).
  now apply with_scores_getitem_other.
Qed.

Lemma score_keeps_other_columns_witness :
  exists df',
    calculate_traffic_score two_regions = Ok df' /\
    getitem df' col_region = Ok (Object ["A"%string; "B"%string]).
Proof.
  assert (Hok : exists df, calculate_traffic_score two_regions = Ok df)
    by (vm_compute; eexists; reflexivity).
  destruct Hok as [df' Hok]. exists df'. split; [exact Hok|].
  rewrite (score_keeps_other_columns two_regions df' col_region Hok).
  - reflexivity.
  - cbv. intuition discriminate.
Defined.

Lemma calculate_traffic_score_numeric_eq (df : DataFrame)
  (s t a : list float64) :
  getitem df col_speed = Ok (Float64 s) ->
  getitem df col_transit = Ok (Float64 t) ->
  getitem df col_accidents = Ok (Float64 a) ->
  calculate_traffic_score df =
  Ok (with_scores df
        (Float64 (normalize s ASCENDING_GOOD))
        (Float64 (normalize t ASCENDING_GOOD))
        (Float64 (normalize a DESCENDING_GOOD))
        (Float64 (weighted_sum (normalize s ASCENDING_GOOD)
                               (normalize t ASCENDING_GOOD)
                               (normalize a DESCENDING_GOOD)))).
Proof.
  intros Hs Ht Ha. unfold calculate_traffic_score.
  rewrite Hs. cbn [bind Series_normalize]. read_back.
  rewrite Ht. cbn [bind Series_normalize]. read_back.
  rewrite Ha. cbn [bind Series_normalize]. read_back.
  reflexivity.
Qed.

Lemma setitem_forallb_len (df : DataFrame) (n : nat) (k : string) (s : Series) :
  forallb (fun c => Nat.eqb (Series_len (snd c)) n) df = true ->
  Series_len s = n ->
  forallb (fun c => Nat.eqb (Series_len (snd c)) n) (setitem df k s) = true.
Proof.
  intros Hdf Hs. induction df as [|[k' s'] r IH]; simpl.
  - rewrite Hs, Nat.eqb_refl. reflexivity.
  - simpl in Hdf. apply andb_true_iff in Hdf. destruct Hdf as [H1 H2].
    destruct (String.eqb k' k); simpl.
    + rewrite Hs, Nat.eqb_refl. exact H2.
    + rewrite H1. now apply IH.
Qed.

Lemma setitem_len (df : DataFrame) (k : string) (s : Series) :
  df <> [] -> Series_len s = len df -> len (setitem df k s) = len df.
Proof.
  destruct df as [|[k' s'] r]; [congruence|]. intros _ Hs. simpl.
  destruct (String.eqb k' k); simpl; [exact Hs | reflexivity].
Qed.

Lemma setitem_not_nil (df : DataFrame) (k : string) (s : Series) :
  setitem df k s <> [].
Proof.
  destruct df as [|[k' s'] r]; simpl; [discriminate|].
  destruct (String.eqb k' k); discriminate.
Qed.

Lemma setitem_well_formed (df : DataFrame) (k : string) (s : Series) :
  df <> [] -> well_formed df = true -> Series_len s = len df ->
  well_formed (setitem df k s) = true /\ len (setitem df k s) = len df.
Proof.
  intros Hnil Hwf Hs.
  pose proof (setitem_len df k s Hnil Hs) as Hl.
  split; [|exact Hl]. unfold well_formed. rewrite Hl.
  now apply setitem_forallb_len.
Qed.

(** X2.  Scoring a frame whose columns have one length and whose three
    raw columns are numeric gives a frame with the same number of rows
    whose columns again have one length: the four new columns are
    numeric and as long as the frame. *)
Theorem score_keeps_shape (df : DataFrame) (s t a : list float64) :
  well_formed df = true ->
  getitem df col_speed = Ok (Float64 s) ->
  getitem df col_transit = Ok (Float64 t) ->
  getitem df col_accidents = Ok (Float64 a) ->
  exists df',
    calculate_traffic_score df = Ok df' /\
    well_formed df' = true /\
    len df' = len df /\
    forall k, In k new_columns ->
      exists xs, getitem df' k = Ok (Float64 xs) /\ List.length xs = len df.
Proof.
  intros Hwf Hs Ht Ha.
  pose proof (getitem_len df (len df) _ _ Hwf Hs) as Ls.
  pose proof (getitem_len df (len df) _ _ Hwf Ht) as Lt.
  pose proof (getitem_len df (len df) _ _ Hwf Ha) as La.
  cbn [Series_len] in Ls, Lt, La.
  assert (Hnil : df <> []) by (intros ->; discriminate Hs).
  set (ns := normalize s ASCENDING_GOOD).
  set (nt := normalize t ASCENDING_GOOD).
  set (na := normalize a DESCENDING_GOOD).
  assert (Lns : List.length ns = len df)
    by (unfold ns; now rewrite normalize_length).
  assert (Lnt : List.length nt = len df)
    by (unfold nt; now rewrite normalize_length).
  assert (Lna : List.length na = len df)
    by (unfold na; now rewrite normalize_length).
  assert (Lsc : List.length (weighted_sum ns nt na) = len df)
    by (rewrite weighted_sum_length; congruence).
  eexists. split; [apply (calculate_traffic_score_numeric_eq df s t a Hs Ht Ha)|].
  fold ns nt na. unfold with_scores.
  destruct (setitem_well_formed df col_norm_speed (Float64 ns) Hnil Hwf Lns)
    as [W1 L1].
  destruct (setitem_well_formed _ col_norm_transit (Float64 nt)
              (setitem_not_nil _ _ _) W1) as [W2 L2];
    [cbn [Series_len]; congruence|].
  destruct (setitem_well_formed _ col_norm_safety (Float64 na)
              (setitem_not_nil _ _ _) W2) as [W3 L3];
    [cbn [Series_len]; congruence|].
  destruct (setitem_well_formed _ col_score (Float64 (weighted_sum ns nt na))
              (setitem_not_nil _ _ _) W3) as [W4 L4];
    [cbn [Series_len]; congruence|].
  split; [exact W4|]. split; [congruence|].
  intros k [<-|[<-|[<-|[<-|[]]]]]; eexists; (split; [read_back; reflexivity|]);
    assumption.
Qed.

Lemma score_keeps_shape_witness :
  exists df',
    calculate_traffic_score tied_regions = Ok df' /\
    well_formed df' = true /\ len df' = 3%nat.
Proof.
  destruct (score_keeps_shape tied_regions
              [Fin 30; Fin 30; Fin 60] [Fin 15; Fin 5; Fin 10]
              [Fin 10; Fin 2; Fin 6] eq_refl eq_refl eq_refl eq_refl)
    as (df' & Hok & Hwf & Hlen & _).
  exists df'. auto.
Defined.

Lemma setitem_same (df : DataFrame) (k : string) (s : Series) :
  getitem df k = Ok s -> setitem df k s = df.
Proof.
  induction df as [|[k' s'] r IH]; simpl; [discriminate|].
  destruct (String.eqb k' k) eqn:E.
  - intros [= ->]. apply String.eqb_eq in E. now subst k'.
  - intros H. now rewrite IH.
Qed.

(** X3.  Scoring is idempotent: on a frame with three numeric raw
    columns, scoring the scored frame again returns it unchanged, since
    the raw columns are as before and the four new columns are
    overwritten in place with the same values. *)
Theorem score_idempotent (df df' : DataFrame) (s t a : list float64) :
  getitem df col_speed = Ok (Float64 s) ->
  getitem df col_transit = Ok (Float64 t) ->
  getitem df col_accidents = Ok (Float64 a) ->
  calculate_traffic_score df = Ok df' ->
  calculate_traffic_score df' = Ok df'.
Proof.
  intros Hs Ht Ha Hok.
  destruct (calculate_traffic_score_numeric df s t a Hs Ht Ha)
    as (df1 & Hok1 & Hns & Hnt & Hna & Hsc & Hkeep).
  rewrite Hok in Hok1. injection Hok1 as <-.
  assert (Ks : getitem df' col_speed = Ok (Float64 s))
    by (rewrite Hkeep; [exact Hs | apply raw_not_new; simpl; auto]).
  assert (Kt : getitem df' col_transit = Ok (Float64 t))
    by (rewrite Hkeep; [exact Ht | apply raw_not_new; simpl; auto]).
  assert (Ka : getitem df' col_accidents = Ok (Float64 a))
    by (rewrite Hkeep; [exact Ha | apply raw_not_new; simpl; auto]).
  rewrite (calculate_traffic_score_numeric_eq df' s t a Ks Kt Ka).
  unfold with_scores.
  rewrite (setitem_same df' col_norm_speed _ Hns).
  rewrite (setitem_same df' col_norm_transit _ Hnt).
  rewrite (setitem_same df' col_norm_safety _ Hna).
  rewrite (setitem_same df' col_score _ Hsc).
  reflexivity.
Qed.

Lemma score_idempotent_witness :
  exists df',
    calculate_traffic_score two_regions = Ok df' /\
    calculate_traffic_score df' = Ok df'.
Proof.
  assert (Hok : exists df, calculate_traffic_score two_regions = Ok df)
    by (vm_compute; eexists; reflexivity).
  destruct Hok as [df' Hok]. exists df'. split; [exact Hok|].
  apply (score_idempotent two_regions df' [Fin 30; Fin 60] [Fin 5; Fin 15]
           [Fin 10; Fin 2] eq_refl eq_refl eq_refl Hok).
Defined.

(** ** The run as a whole *)

Lemma getitem_Raise (df : DataFrame) (k : string) (e : exn) :
  getitem df k = Raise e -> e = KeyError k.
Proof.
  induction df as [|[k' s'] r IH]; simpl.
  - now intros [= <-].
  - destruct (String.eqb k' k); [discriminate | exact IH].
Qed.

(** X5.  A valid dataset without a region column is scored, and then the
    run ends at the ranked table with the [KeyError] for that column,
    whatever is selected. *)
Theorem run_without_region_column (nargsort : Series -> list nat)
  (df0 : DataFrame) (user_location : scalar) (e : exn) :
  valid_dataset df0 = true ->
  getitem df0 col_region = Raise e ->
  (exists df, calculate_traffic_score df0 = Ok df) /\
  run nargsort (Csv df0) user_location = Uncaught (KeyError col_region).
Proof.
  intros Hv Hr.
  destruct (valid_dataset_inv df0 Hv) as (s & t & a & Hs & Ht & Ha & _).
  destruct (calculate_traffic_score_numeric df0 s t a Hs Ht Ha)
    as (df & Hok & _).
  split; [now exists df|].
  pose proof (getitem_Raise df0 col_region e Hr) as ->.
  assert (Kr : getitem df col_region = Raise (KeyError col_region))
    by (rewrite (scored_keeps_raw df0 df); simpl; auto).
  unfold run. cbn [load_and_preprocess_data].
  assert (He : empty df0 = false).
  { unfold valid_dataset in Hv.
    repeat (apply andb_true_iff in Hv; destruct Hv as [Hv ?]).
    now apply negb_true_iff in Hv. }
  rewrite He. cbn [negb]. rewrite Hok.
  unfold display_df, select. cbn [mapM bind]. rewrite Kr. reflexivity.
Qed.

Lemma run_without_region_column_witness :
  run argsort_forward (Csv missing_region) placeholder =
  Uncaught (KeyError col_region).
Proof.
  apply (run_without_region_column argsort_forward missing_region placeholder
           (KeyError col_region)); reflexivity.
Defined.

(** ** The ranked table as a frame *)

Lemma take_len (idx : list nat) (s : Series) :
  Series_len (take idx s) = List.length idx.
Proof. destruct s; cbn [take Series_len]; apply length_map. Qed.

Lemma map_nth_positions {A : Type} (xs : list A) (d : A) :
  map (fun i => nth i xs d) (seq 0 (List.length xs)) = xs.
Proof.
  induction xs as [|x xs IH]; [reflexivity|].
  cbn [List.length seq map nth]. f_equal.
  rewrite <- seq_shift, map_map. exact IH.
Qed.

Lemma take_tolist_perm (idx : list nat) (s : Series) :
  Permutation idx (seq 0 (Series_len s)) ->
  Permutation (tolist (take idx s)) (tolist s).
Proof.
  intros Hp. destruct s as [xs|xs]; cbn [take tolist Series_len] in *.
  - apply Permutation_map.
    apply perm_trans with (map (fun i => nth i xs NaN) (seq 0 (List.length xs)));
      [now apply Permutation_map|].
    rewrite map_nth_positions. apply Permutation_refl.
  - apply Permutation_map.
    apply perm_trans
      with (map (fun i => nth i xs EmptyString) (seq 0 (List.length xs)));
      [now apply Permutation_map|].
    rewrite map_nth_positions. apply Permutation_refl.
Qed.

(** The scored frame of a valid dataset with a region column, and its
    ranked table: the five columns shown and the score column's
    length. *)
Lemma display_df_valid (nargsort : Series -> list nat) (df0 df : DataFrame)
  (regions : Series) :
  valid_dataset df0 = true ->
  calculate_traffic_score df0 = Ok df ->
  getitem df0 col_region = Ok regions ->
  exists s t a sc,
    getitem df col_region = Ok regions /\
    getitem df col_speed = Ok (Float64 s) /\
    getitem df col_transit = Ok (Float64 t) /\
    getitem df col_accidents = Ok (Float64 a) /\
    getitem df col_score = Ok (Float64 sc) /\
    Series_len regions = len df0 /\
    List.length s = len df0 /\ List.length t = len df0 /\
    List.length a = len df0 /\ List.length sc = len df0 /\
    display_df nargsort df =
    Ok [ (col_region, take (nargsort (Float64 sc)) regions);
         (col_rank, arange 1 (List.length (nargsort (Float64 sc)) + 1));
         (col_speed, take (nargsort (Float64 sc)) (Float64 s));
         (col_transit, take (nargsort (Float64 sc)) (Float64 t));
         (col_accidents, take (nargsort (Float64 sc)) (Float64 a));
         (col_score, take (nargsort (Float64 sc)) (Float64 sc)) ].
Proof.
  intros Hv Hok Hr.
  pose proof (valid_well_formed df0 Hv) as Hwf.
  destruct (valid_dataset_inv df0 Hv)
    as (s & t & a & Hs & Ht & Ha & _ & _ & _ & Ls & Lt & La & _).
  destruct (calculate_traffic_score_numeric df0 s t a Hs Ht Ha)
    as (df' & Hok' & _ & _ & _ & Hsc & _).
  rewrite Hok in Hok'. injection Hok' as <-.
  assert (Kr : getitem df col_region = Ok regions)
    by (rewrite (scored_keeps_raw df0 df); simpl; auto).
  assert (Ks : getitem df col_speed = Ok (Float64 s))
    by (rewrite (scored_keeps_raw df0 df); simpl; auto).
  assert (Kt : getitem df col_transit = Ok (Float64 t))
    by (rewrite (scored_keeps_raw df0 df); simpl; auto).
  assert (Ka : getitem df col_accidents = Ok (Float64 a))
    by (rewrite (scored_keeps_raw df0 df); simpl; auto).
  exists s, t, a. eexists.
  do 4 (split; [assumption|]). split; [exact Hsc|].
  split; [apply (getitem_len df0 (len df0) col_region regions Hwf Hr)|].
  do 3 (split; [assumption|]).
  split; [rewrite weighted_sum_length; rewrite !normalize_length; congruence|].
  apply (display_df_columns nargsort df _ _ _ _ _ Kr Ks Kt Ka Hsc).
Qed.

(** X7.  For a valid dataset with a region column the ranked table has
    the columns region, rank, speed, routes, accidents and score, in this
    order (the rank stands second, the normalised columns are left out),
    and each of them has as many rows as the dataset. *)
Theorem display_df_shape (nargsort : Series -> list nat) (df0 df : DataFrame)
  (regions : Series) :
  nargsort_spec nargsort ->
  valid_dataset df0 = true ->
  calculate_traffic_score df0 = Ok df ->
  getitem df0 col_region = Ok regions ->
  exists table,
    display_df nargsort df = Ok table /\
    map fst table = [col_region; col_rank; col_speed; col_transit;
                     col_accidents; col_score] /\
    well_formed table = true /\
    len table = len df0.
Proof.
  intros Hspec Hv Hok Hr.
  destruct (display_df_valid nargsort df0 df regions Hv Hok Hr)
    as (s & t & a & sc & _ & _ & _ & _ & _ & _ & _ & _ & _ & Lsc & Hd).
  destruct (Hspec sc) as [Hperm _].
  assert (Hlen : List.length (nargsort (Float64 sc)) = len df0)
    by (rewrite (Permutation_length Hperm), length_seq; exact Lsc).
  eexists. split; [exact Hd|]. split; [reflexivity|].
  unfold well_formed. cbn [len forallb snd].
  rewrite !take_len. unfold arange. cbn [Series_len].
  rewrite length_map, length_seq, Nat.add_sub, Nat.eqb_refl.
  split; [reflexivity | exact Hlen].
Qed.

Lemma display_df_shape_witness :
  exists df table,
    calculate_traffic_score two_regions = Ok df /\
    display_df argsort_forward df = Ok table /\
    len table = 2%nat.
Proof.
  assert (Hok : exists df, calculate_traffic_score two_regions = Ok df)
    by (vm_compute; eexists; reflexivity).
  destruct Hok as [df Hok].
  destruct (display_df_shape argsort_forward two_regions df
              (Object ["A"%string; "B"%string]) argsort_forward_spec
              eq_refl Hok eq_refl)
    as (table & Hd & _ & _ & Hlen).
  exists df, table. auto.
Defined.

(** X8.  The ranked table loses and repeats nothing: each of its five
    data columns holds the cells of the same column of the scored frame,
    rearranged. *)
Theorem display_df_permutes (nargsort : Series -> list nat)
  (df0 df : DataFrame) (regions : Series) (k : string) :
  nargsort_spec nargsort ->
  valid_dataset df0 = true ->
  calculate_traffic_score df0 = Ok df ->
  getitem df0 col_region = Ok regions ->
  In k [col_region; col_speed; col_transit; col_accidents; col_score] ->
  exists table c c',
    display_df nargsort df = Ok table /\
    getitem df k = Ok c /\
    getitem table k = Ok c' /\
    Permutation (tolist c') (tolist c).
Proof.
  intros Hspec Hv Hok Hr Hk.
  destruct (display_df_valid nargsort df0 df regions Hv Hok Hr)
    as (s & t & a & sc & Kr & Ks & Kt & Ka & Ksc & Lr & Ls & Lt & La & Lsc
        & Hd).
  destruct (Hspec sc) as [Hperm _].
  destruct Hk as [<-|[<-|[<-|[<-|[<-|[]]]]]];
    eexists; eexists; eexists;
    (split; [exact Hd|]); (split; [eassumption|]);
    (split; [reflexivity|]); apply take_tolist_perm;
    cbn [Series_len]; congruence.
Qed.

Lemma display_df_permutes_witness :
  exists df table c',
    calculate_traffic_score tied_regions = Ok df /\
    display_df argsort_forward df = Ok table /\
    getitem table col_region = Ok c' /\
    Permutation (tolist c') [Str "A"; Str "B"; Str "C"].
Proof.
  assert (Hok : exists df, calculate_traffic_score tied_regions = Ok df)
    by (vm_compute; eexists; reflexivity).
  destruct Hok as [df Hok].
  destruct (display_df_permutes argsort_forward tied_regions df
              (Object ["A"%string; "B"%string; "C"%string]) col_region
              argsort_forward_spec eq_refl Hok eq_refl)
    as (table & c & c' & Hd & Hc & Hc' & Hp); [simpl; auto|].
  exists df, table, c'. split; [exact Hok|]. split; [exact Hd|].
  split; [exact Hc'|].
  vm_compute in Hok. injection Hok as <-.
  vm_compute in Hc. injection Hc as <-. exact Hp.
Defined.

(** ** Labels when cells are missing *)

Lemma direction_cases (d : float64) :
  (direction d = higher <-> fltb (Fin 0) d = true) /\
  (direction d = lower <-> fltb d (Fin 0) = true) /\
  (direction d = equal <-> d = NaN \/ feq d (Fin 0)).
Proof.
  destruct d as [q| | |].
  - destruct (direction_Fin q) as (H1 & H2 & H3).
    rewrite !fltb_Fin. split; [exact H1|]. split; [exact H2|].
    rewrite H3. cbn [feq]. split; [now right | intros [H|H]; [discriminate | exact H]].
  - cbv. intuition discriminate.
  - cbv. intuition discriminate.
  - cbv. intuition discriminate.
Qed.

(** X11.  Every line [compare_col] builds carries the cell of the
    selected row, the mean it was given, their difference and its label;
    the label is "higher" exactly when the difference is greater than
    zero, "lower" exactly when it is less, and "equal" otherwise, which
    is when the difference is zero or is NaN: a missing cell is reported
    as equal to the mean. *)
Theorem compare_col_labels (df : DataFrame) (i : nat)
  (avg : list (string * float64)) (col : string) (l : Line) :
  compare_col df i avg col = Ok l ->
  exists xs,
    getitem df col = Ok (Float64 xs) /\
    nth_error xs i = Some (line_user_val l) /\
    dict_getitem avg col = Ok (line_avg_val l) /\
    line_col l = col /\
    line_diff l = fsub (line_user_val l) (line_avg_val l) /\
    (line_direction l = higher <-> fltb (Fin 0) (line_diff l) = true) /\
    (line_direction l = lower <-> fltb (line_diff l) (Fin 0) = true) /\
    (line_direction l = equal <->
     line_diff l = NaN \/ feq (line_diff l) (Fin 0)).
Proof.
  unfold compare_col, row_getitem.
  destruct (getitem df col) as [[xs|xs]|e] eqn:Hc; cbn [bind tolist];
    try discriminate; rewrite nth_error_map.
  - destruct (nth_error xs i) as [u|] eqn:Hu; cbn [option_map bind];
      [|discriminate].
    destruct (dict_getitem avg col) as [m|e] eqn:Hm; cbn [bind];
      [|discriminate].
    intros [= <-]. exists xs. cbn [line_col line_user_val line_avg_val
      line_diff line_direction].
    do 5 (split; [assumption || reflexivity|]). apply direction_cases.
  - destruct (nth_error xs i) as [u|]; cbn [option_map bind];
      [|discriminate].
    destruct (dict_getitem avg col); cbn [bind]; discriminate.
Qed.

Lemma compare_col_labels_witness :
  exists df l,
    calculate_traffic_score missing_cell = Ok df /\
    compare_col df 1 (mean df) col_speed = Ok l /\
    line_diff l = NaN /\ line_direction l = equal.
Proof.
  assert (Hok : exists df, calculate_traffic_score missing_cell = Ok df)
    by (vm_compute; eexists; reflexivity).
  destruct Hok as [df Hok].
  assert (Hl : exists l, compare_col df 1 (mean df) col_speed = Ok l /\
                         line_diff l = NaN).
  { vm_compute in Hok. injection Hok as <-. vm_compute.
    eexists. split; reflexivity. }
  destruct Hl as (l & Hl & Hd).
  destruct (compare_col_labels df 1 (mean df) col_speed l Hl)
    as (xs & _ & _ & _ & _ & _ & _ & _ & He).
  exists df, l. split; [exact Hok|]. split; [exact Hl|].
  split; [exact Hd|]. apply He. now left.
Defined.

(** ** Best and worst rows, dominance *)

Lemma score_cell_full (x y z r : Q) :
  x == 100 -> y == 100 -> z == 100 ->
  score_cell (Fin x) (Fin y) (Fin z) = Fin r -> r == 100.
Proof.
  intros Ex Ey Ez Hr.
  destruct (score_cell_parts x y z)
    as (ws & wt & p1 & p2 & p3 & p12 & r0 & Hs & Ht & Ha & Ps & Pt
        & H1 & B1 & H2 & B2 & H3 & B3 & H12 & B12 & H0 & B0 & E);
    try (split; lra).
  rewrite E in Hr. injection Hr as <-.
  destruct weights_facts
    as (ws' & wt' & Hs' & Ht' & _ & _ & _ & F40 & F30 & F70 & F100).
  rewrite Hs in Hs'. injection Hs' as <-.
  rewrite Ht in Ht'. injection Ht' as <-.
  assert (E1 : p1 == 40).
  { assert (X : x * ws == 100 * ws) by (rewrite Ex; reflexivity).
    pose proof (feq_trans _ _ _ (round64_eq _ _ X) F40) as G.
    rewrite H1 in G. exact G. }
  assert (E2 : p2 == 30).
  { assert (X : y * wt == 100 * wt) by (rewrite Ey; reflexivity).
    pose proof (feq_trans _ _ _ (round64_eq _ _ X) F30) as G.
    rewrite H2 in G. exact G. }
  assert (E3 : p3 == 30).
  { assert (X : z * wt == 100 * wt) by (rewrite Ez; reflexivity).
    pose proof (feq_trans _ _ _ (round64_eq _ _ X) F30) as G.
    rewrite H3 in G. exact G. }
  assert (E12 : p12 == 70).
  { assert (X : p1 + p2 == 40 + 30) by (rewrite E1, E2; reflexivity).
    pose proof (feq_trans _ _ _ (round64_eq _ _ X) F70) as G.
    rewrite H12 in G. exact G. }
  assert (X : p12 + p3 == 70 + 30) by (rewrite E12, E3; reflexivity).
  pose proof (feq_trans _ _ _ (round64_eq _ _ X) F100) as G.
  rewrite H0 in G. exact G.
Qed.

Lemma score_cell_zero (x y z r : Q) :
  x == 0 -> y == 0 -> z == 0 ->
  score_cell (Fin x) (Fin y) (Fin z) = Fin r -> r == 0.
Proof.
  intros Ex Ey Ez Hr.
  destruct (score_cell_parts x y z)
    as (ws & wt & p1 & p2 & p3 & p12 & r0 & Hs & Ht & Ha & Ps & Pt
        & H1 & B1 & H2 & B2 & H3 & B3 & H12 & B12 & H0 & B0 & E);
    try (split; lra).
  rewrite E in Hr. injection Hr as <-.
  assert (Z : forall u v, u == 0 -> round64 u = Fin v -> v == 0).
  { intros u v Eu Hu. pose proof (round64_eq _ _ Eu) as G.
    rewrite Hu, round64_0 in G. exact G. }
  assert (E1 : p1 == 0) by (apply (Z (x * ws)); auto; rewrite Ex; ring).
  assert (E2 : p2 == 0) by (apply (Z (y * wt)); auto; rewrite Ey; ring).
  assert (E3 : p3 == 0) by (apply (Z (z * wt)); auto; rewrite Ez; ring).
  assert (E12 : p12 == 0) by (apply (Z (p1 + p2)); auto; rewrite E1, E2; ring).
  apply (Z (p12 + p3)); auto. rewrite E12, E3. ring.
Qed.

(** The three normalised cells and the score of one row of a dataset
    whose columns are valid, have [max != min] and a finite spread. *)
Lemma scored_row (s t a : column) (i : nat) (vs vt va : Q) :
  valid_column s = true -> valid_column t = true -> valid_column a = true ->
  nondegenerate64 s = true -> no_overflow s = true ->
  nondegenerate64 t = true -> no_overflow t = true ->
  nondegenerate64 a = true -> no_overflow a = true ->
  nth_error (cells s) i = Some vs ->
  nth_error (cells t) i = Some vt ->
  nth_error (cells a) i = Some va ->
  exists x y z r,
    nth_error (normalize64 s ASCENDING_GOOD) i = Some (Fin x) /\
    nth_error (normalize64 t ASCENDING_GOOD) i = Some (Fin y) /\
    nth_error (normalize64 a DESCENDING_GOOD) i = Some (Fin z) /\
    0 <= x <= 100 /\ 0 <= y <= 100 /\ 0 <= z <= 100 /\
    score_cell (Fin x) (Fin y) (Fin z) = Fin r /\ 0 <= r <= 100 /\
    nth_error (traffic_score64 s t a) i = Some (Fin r).
Proof.
  intros Vs Vt Va Ds Os Dt Ot Da Oa Hs Ht Ha.
  destruct (normalized_cell s ASCENDING_GOOD i vs Vs Ds Os Hs)
    as (_ & _ & _ & x & _ & _ & _ & _ & _ & _ & _ & _ & _ & Bx & Hx).
  destruct (normalized_cell t ASCENDING_GOOD i vt Vt Dt Ot Ht)
    as (_ & _ & _ & y & _ & _ & _ & _ & _ & _ & _ & _ & _ & By & Hy).
  destruct (normalized_cell a DESCENDING_GOOD i va Va Da Oa Ha)
    as (_ & _ & _ & z & _ & _ & _ & _ & _ & _ & _ & _ & _ & Bz & Hz).
  destruct (score_cell_range x y z Bx By Bz) as (r & Hr & Br).
  exists x, y, z, r. repeat (split; [assumption|]).
  rewrite (traffic_score64_nth s t a i _ _ _ Hx Hy Hz), Hr. reflexivity.
Qed.

(** X14.  In a dataset whose three raw columns are finite with
    [max != min] and a spread computed without wrap-around or overflow,
    a row that is best in all three metrics (highest speed, most routes,
    fewest accidents) scores exactly 100 in float64, and a row that is
    worst in all three scores exactly 0. *)
Theorem best_and_worst_rows64 (s t a : column) (i : nat) (vs vt va : Q) :
  valid_column s = true -> valid_column t = true -> valid_column a = true ->
  nondegenerate64 s = true -> no_overflow s = true ->
  nondegenerate64 t = true -> no_overflow t = true ->
  nondegenerate64 a = true -> no_overflow a = true ->
  nth_error (cells s) i = Some vs ->
  nth_error (cells t) i = Some vt ->
  nth_error (cells a) i = Some va ->
  exists r,
    nth_error (traffic_score64 s t a) i = Some (Fin r) /\
    (vs == col_max s -> vt == col_max t -> va == col_min a -> r == 100) /\
    (vs == col_min s -> vt == col_min t -> va == col_max a -> r == 0).
Proof.
  intros Vs Vt Va Ds Os Dt Ot Da Oa Hs Ht Ha.
  destruct (scored_row s t a i vs vt va)
    as (x & y & z & r & Hx & Hy & Hz & _ & _ & _ & Hr & _ & Hsc); auto.
  destruct (normalize64_range s ASCENDING_GOOD Vs Ds Os) as (_ & _ & Rs).
  destruct (normalize64_range t ASCENDING_GOOD Vt Dt Ot) as (_ & _ & Rt).
  destruct (normalize64_range a DESCENDING_GOOD Va Da Oa) as (_ & _ & Ra).
  destruct (Rs i vs Hs) as (n1 & x' & _ & _ & Hx' & Ex & _ & X0 & X1).
  destruct (Rt i vt Ht) as (n2 & y' & _ & _ & Hy' & Ey & _ & Y0 & Y1).
  destruct (Ra i va Ha) as (n3 & z' & _ & _ & Hz' & Ez & _ & Z0 & Z1).
  assert (Qx : x' = x) by congruence.
  assert (Qy : y' = y) by congruence.
  assert (Qz : z' = z) by congruence.
  subst x' y' z'.
  exists r. split; [exact Hsc|]. split; intros E1 E2 E3.
  - apply (score_cell_full x y z r); auto.
  - apply (score_cell_zero x y z r); auto.
Qed.

Lemma best_and_worst_rows64_witness :
  exists r,
    nth_error (traffic_score64 sample_speed sample_transit sample_accidents)
      1 = Some (Fin r) /\
    r == 100.
Proof.
  destruct (best_and_worst_rows64 sample_speed sample_transit
              sample_accidents 1 60 15 2) as (r & Hr & Hb & _);
    [vm_compute; reflexivity ..|].
  exists r. split; [exact Hr|]. apply Hb; vm_compute; reflexivity.
Defined.

(** X15.  The score respects dominance, weakly: in such a dataset a row
    that is at least as fast, has at least as many routes and at most as
    many accidents as another row never scores lower than it. *)
Theorem score_respects_dominance64 (s t a : column) (i j : nat)
  (si sj ti tj ai aj : Q) :
  valid_column s = true -> valid_column t = true -> valid_column a = true ->
  nondegenerate64 s = true -> no_overflow s = true ->
  nondegenerate64 t = true -> no_overflow t = true ->
  nondegenerate64 a = true -> no_overflow a = true ->
  nth_error (cells s) i = Some si -> nth_error (cells s) j = Some sj ->
  nth_error (cells t) i = Some ti -> nth_error (cells t) j = Some tj ->
  nth_error (cells a) i = Some ai -> nth_error (cells a) j = Some aj ->
  si <= sj -> ti <= tj -> aj <= ai ->
  exists ri rj,
    nth_error (traffic_score64 s t a) i = Some (Fin ri) /\
    nth_error (traffic_score64 s t a) j = Some (Fin rj) /\
    ri <= rj.
Proof.
  intros Vs Vt Va Ds Os Dt Ot Da Oa Hsi Hsj Hti Htj Hai Haj Ls Lt La.
  destruct (scored_row s t a i si ti ai)
    as (x & y & z & ri & Hx & Hy & Hz & Bx & By & Bz & Hri & _ & Hi); auto.
  destruct (scored_row s t a j sj tj aj)
    as (x' & y' & z' & rj & Hx' & Hy' & Hz' & Bx' & By' & Bz' & Hrj & _ & Hj);
    auto.
  destruct (normalize64_monotone s i j si sj Vs Ds Os Hsi Hsj Ls)
    as (u1 & u2 & _ & _ & E1 & E2 & Lu & _).
  destruct (normalize64_monotone t i j ti tj Vt Dt Ot Hti Htj Lt)
    as (v1 & v2 & _ & _ & F1 & F2 & Lv & _).
  destruct (normalize64_monotone a j i aj ai Va Da Oa Haj Hai La)
    as (_ & _ & w2 & w1 & _ & _ & _ & G2 & G1 & Lw).
  rewrite Hx in E1. injection E1 as <-. rewrite Hx' in E2. injection E2 as <-.
  rewrite Hy in F1. injection F1 as <-. rewrite Hy' in F2. injection F2 as <-.
  rewrite Hz in G1. injection G1 as <-. rewrite Hz' in G2. injection G2 as <-.
  exists ri, rj. split; [exact Hi|]. split; [exact Hj|].
  apply (score_cell_mono x y z x' y' z' ri rj); tauto.
Qed.

Lemma score_respects_dominance64_witness :
  exists ri rj,
    nth_error (traffic_score64 sample_speed sample_transit sample_accidents)
      0 = Some (Fin ri) /\
    nth_error (traffic_score64 sample_speed sample_transit sample_accidents)
      1 = Some (Fin rj) /\
    ri <= rj.
Proof.
  apply (score_respects_dominance64 sample_speed sample_transit
           sample_accidents 0 1 30 60 5 15 10 2);
    try (vm_compute; reflexivity); unfold Qle; simpl; lia.
Defined.

(** ** Missing cells *)

Lemma notna_idempotent (xs : list float64) : notna (notna xs) = notna xs.
Proof.
  unfold notna. induction xs as [|x xs IH]; simpl; [reflexivity|].
  destruct (negb (isnan x)) eqn:E; simpl; [rewrite E, IH|]; auto.
Qed.

Lemma Series_min_notna (xs : list float64) :
  Series_min (notna xs) = Series_min xs.
Proof. unfold Series_min. now rewrite notna_idempotent. Qed.

Lemma Series_max_notna (xs : list float64) :
  Series_max (notna xs) = Series_max xs.
Proof. unfold Series_max. now rewrite notna_idempotent. Qed.

Lemma fdiv_NaN_l (y : float64) : fdiv NaN y = NaN.
Proof. destruct y; reflexivity. Qed.

Lemma norm_cell_NaN (sp : float64) : norm_cell NaN sp = NaN.
Proof.
  unfold norm_cell, b_mul, b_div. rewrite fdiv_NaN_l. reflexivity.
Qed.

Lemma b_sub_NaN_l (y : float64) : b_sub NaN y = NaN.
Proof. unfold b_sub, fsub. rewrite fadd_NaN_l. reflexivity. Qed.

Lemma b_sub_NaN_r (x : float64) : b_sub x NaN = NaN.
Proof. unfold b_sub, fsub. cbn [fneg]. rewrite fadd_NaN_r. reflexivity. Qed.

Lemma missing_normalized (c : column) (d : norm_direction) (i : nat) :
  missing_at c i = true -> nth_error (normalize64 c d) i = Some NaN.
Proof.
  destruct c as [xs|xs]; cbn [missing_at]; [discriminate|].
  destruct (nth_error xs i) as [[| | |]|] eqn:E; try discriminate. intros _.
  rewrite <- norm_cell_NaN with (sp := spread (Float64Col xs)).
  apply normalize64_nth. cbn [numerator]. rewrite nth_error_map, E.
  cbn [option_map]. destruct d; now rewrite ?b_sub_NaN_l, ?b_sub_NaN_r.
Qed.

Lemma filter_combine_map {A B : Type} (f : A -> bool) (g : A -> B)
  (xs : list A) :
  map snd (filter (fun p => f (fst p)) (combine xs (map g xs))) =
  map g (filter f xs).
Proof.
  induction xs as [|x xs IH]; cbn [map combine filter fst]; [reflexivity|].
  destruct (f x); cbn [map snd]; now rewrite IH.
Qed.

(** X9.  A missing (NaN) cell of a [float64] column is normalised to
    NaN, and it does not disturb the others: the normalised cells of the
    rows that are present are those of the column with the missing cells
    dropped, since minimum and maximum skip NaN. *)
Theorem missing_cells_normalized (xs : list float64) (d : norm_direction) :
  (forall i, nth_error xs i = Some NaN ->
             nth_error (normalize64 (Float64Col xs) d) i = Some NaN) /\
  map snd (filter (fun p => negb (isnan (fst p)))
                  (combine xs (normalize64 (Float64Col xs) d))) =
  normalize64 (Float64Col (notna xs)) d.
Proof.
  split.
  - intros i Hi. apply missing_normalized. cbn [missing_at]. now rewrite Hi.
  - unfold normalize64. cbn [numerator spread].
    rewrite !map_map, Series_min_notna, Series_max_notna.
    unfold notna.
    exact (filter_combine_map (fun v => negb (isnan v)) _ xs).
Qed.

(** X10.  A row with a missing cell in one of the three raw columns has
    the score NaN. *)
Theorem missing_cell_score_nan (s t a : column) (i : nat) :
  List.length (cells s) = List.length (cells t) ->
  List.length (cells t) = List.length (cells a) ->
  (i < List.length (cells s))%nat ->
  missing_at s i || missing_at t i || missing_at a i = true ->
  nth_error (traffic_score64 s t a) i = Some NaN.
Proof.
  intros L1 L2 Hi Hm.
  destruct (score_row s t a i L1 L2 Hi) as (x & y & z & Hx & Hy & Hz & Hs).
  rewrite Hs. f_equal. apply score_cell_nan.
  apply orb_true_iff in Hm. destruct Hm as [Hm|Hm];
    [apply orb_true_iff in Hm; destruct Hm as [Hm|Hm]|].
  - left. pose proof (missing_normalized s ASCENDING_GOOD i Hm) as N. congruence.
  - right; left.
    pose proof (missing_normalized t ASCENDING_GOOD i Hm) as N. congruence.
  - right; right.
    pose proof (missing_normalized a DESCENDING_GOOD i Hm) as N. congruence.
Qed.

Lemma missing_cell_score_nan_witness :
  nth_error (traffic_score64 gap_speed sample_transit sample_accidents) 1 =
    Some NaN.
Proof.
  apply (missing_cell_score_nan gap_speed sample_transit sample_accidents 1);
    try (vm_compute; reflexivity).
  simpl; lia.
Defined.
